(** * Enigma: a shallow embedding of [enigma.py] and its specification

    The development follows the source file class by class:
    - Python primitives used by the code (string slicing, indexing,
      [str.index], [str.upper], [dict(zip(..))], exceptions);
    - a heap of [Rotor] objects and a state-and-exception monad, since rotor
      objects are mutated in place and may be shared;
    - [Rotor], [Reflector] and [Machine] with the methods of the source;
    - the properties of the specification.

    Characters are the 8-bit [ascii] values, read as the code points 0 to
    255, and [str.upper] is its action on them, see [upper]: the uppercase
    form of all but three of them is again one of them. *)

From Stdlib Require Import Ascii String.
From Stdlib Require Import List ZArith Lia Bool Permutation.
From Stdlib Require Import FunctionalExtensionality.
Import ListNotations.
Open Scope Z_scope.

(* ================================================================== *)
(** * Part I: the embedding *)
(* ================================================================== *)

(** ** Python values *)

Definition str := list ascii.

Definition lit (s : string) : str := list_ascii_of_string s.

(** The exceptions the code can raise.  [KeyError] carries the missing key,
    [ValueError] its message. *)
Inductive exn : Type :=
| IndexError
| KeyError (key : ascii)
| ValueError (msg : str).

Inductive result (A : Type) : Type :=
| Ok (a : A)
| Raise (e : exn).

Arguments Ok {A} a.
Arguments Raise {A} e.

Definition rbind {A B} (r : result A) (k : A -> result B) : result B :=
  match r with
  | Ok a => k a
  | Raise e => Raise e
  end.

Notation "x <~ r ;; k" := (rbind r (fun x => k))
  (at level 61, r at next level, right associativity).

(** [s[o:]] and [s[:o]] cut [s] at the same place: a negative bound counts
    from the end, and a bound outside the string is clamped. *)
Definition slice_bound {A} (s : list A) (o : Z) : nat :=
  let n := Z.of_nat (length s) in
  Z.to_nat (if o <? 0 then Z.max 0 (n + o) else Z.min o n).

Definition slice_from {A} (s : list A) (o : Z) : list A :=
  skipn (slice_bound s o) s.

Definition slice_to {A} (s : list A) (o : Z) : list A :=
  firstn (slice_bound s o) s.

(** [s[i]]: negative indices count from the end, anything else outside
    the sequence raises [IndexError]. *)
Definition getitem {A} (s : list A) (i : Z) : result A :=
  let n := Z.of_nat (length s) in
  let j := if i <? 0 then i + n else i in
  if (0 <=? j) && (j <? n) then
    match nth_error s (Z.to_nat j) with
    | Some a => Ok a
    | None => Raise IndexError
    end
  else Raise IndexError.

(** [c in s] for a one-character [c]. *)
Definition contains (s : str) (c : ascii) : bool :=
  existsb (Ascii.eqb c) s.

Fixpoint find (s : str) (c : ascii) : option nat :=
  match s with
  | [] => None
  | x :: s' => if Ascii.eqb x c then Some O
               else option_map S (find s' c)
  end.

(** [s.index(c)] *)
Definition index (s : str) (c : ascii) : result Z :=
  match find s c with
  | Some i => Ok (Z.of_nat i)
  | None => Raise (ValueError (lit "substring not found"))
  end.

(** [c.upper()]: a-z (97..122) and the accented lower-case letters 224..254,
    the division sign 247 apart, are moved down by 32; the other characters
    have no uppercase form of their own.  Three characters are kept here
    although their uppercase form differs, because it is not an 8-bit
    character: the micro sign 181 (U+039C), the sharp s 223 (the two
    characters SS) and y with diaeresis 255 (U+0178).  [has_upper] excludes
    them, and every property that depends on the value of [upper] at a
    character that is not a letter is stated under it. *)
Definition upper (c : ascii) : ascii :=
  let n := N_of_ascii c in
  if ((97 <=? n) && (n <=? 122)
      || (224 <=? n) && (n <=? 254) && negb (n =? 247))%N
  then ascii_of_N (n - 32) else c.

(** [upper c] is the whole of [c.upper()] *)
Definition has_upper (c : ascii) : bool :=
  let n := N_of_ascii c in
  negb ((n =? 181) || (n =? 223) || (n =? 255))%N.

(** [range(a, b)] *)
Definition range (a b : nat) : list Z :=
  map Z.of_nat (seq a (b - a)).

(** ** Dictionaries

    Insertion-ordered, as in Python: assigning to a key that is present
    replaces its value in place, a new key goes to the end. *)

Definition dict := list (ascii * ascii).

Fixpoint dict_set (d : dict) (k v : ascii) : dict :=
  match d with
  | [] => [(k, v)]
  | (k', v') :: d' =>
      if Ascii.eqb k' k then (k', v) :: d' else (k', v') :: dict_set d' k v
  end.

Definition dict_insert (d : dict) (p : ascii * ascii) : dict :=
  dict_set d (fst p) (snd p).

(** [dict(pairs)] *)
Definition dict_of (pairs : list (ascii * ascii)) : dict :=
  fold_left dict_insert pairs [].

Fixpoint dict_find (d : dict) (k : ascii) : option ascii :=
  match d with
  | [] => None
  | (k', v) :: d' => if Ascii.eqb k' k then Some v else dict_find d' k
  end.

(** [d[k]] *)
Definition dict_getitem (d : dict) (k : ascii) : result ascii :=
  match dict_find d k with
  | Some v => Ok v
  | None => Raise (KeyError k)
  end.

(** the keys of [d] in iteration order *)
Definition dict_keys (d : dict) : list ascii := map fst d.

(** [zip] stops at the end of the shorter sequence. *)
Definition zip {A B} (a : list A) (b : list B) : list (A * B) := combine a b.

Definition ALPHABET : str := lit "ABCDEFGHIJKLMNOPQRSTUVWXYZ".

(** ** Rotor objects and the heap *)

Record Rotor : Type := mkRotor {
  initial_offset : Z;
  alphabet : str;
  rotations : Z;
  forward_mappings : dict;
  reverse_mappings : dict
}.

Definition set_initial_offset (v : Z) (r : Rotor) : Rotor :=
  mkRotor v (alphabet r) (rotations r)
          (forward_mappings r) (reverse_mappings r).

Definition set_alphabet (v : str) (r : Rotor) : Rotor :=
  mkRotor (initial_offset r) v (rotations r)
          (forward_mappings r) (reverse_mappings r).

Definition set_rotations (v : Z) (r : Rotor) : Rotor :=
  mkRotor (initial_offset r) (alphabet r) v
          (forward_mappings r) (reverse_mappings r).

Definition set_forward_mappings (v : dict) (r : Rotor) : Rotor :=
  mkRotor (initial_offset r) (alphabet r) (rotations r)
          v (reverse_mappings r).

Definition set_reverse_mappings (v : dict) (r : Rotor) : Rotor :=
  mkRotor (initial_offset r) (alphabet r) (rotations r)
          (forward_mappings r) v.

(** A rotor object is identified by its address; the heap gives the
    attributes of every object.  Two entries of a machine's rotor list
    that hold the same address are the same object. *)
Definition ref := nat.

Definition heap := ref -> Rotor.

Definition store (h : heap) (self : ref) (r : Rotor) : heap :=
  fun p => if Nat.eqb p self then r else h p.

(** ** The monad of methods: heap passing, with exceptions.  The heap
    survives an exception, as the mutations done before it do. *)

Definition M (A : Type) : Type := heap -> result A * heap.

Definition ret {A} (a : A) : M A := fun h => (Ok a, h).

Definition raise {A} (e : exn) : M A := fun h => (Raise e, h).

Definition bind {A B} (m : M A) (k : A -> M B) : M B :=
  fun h =>
    match m h with
    | (Ok a, h') => k a h'
    | (Raise e, h') => (Raise e, h')
    end.

Definition lift {A} (r : result A) : M A := fun h => (r, h).

Notation "x <- m ;; k" := (bind m (fun x => k))
  (at level 61, m at next level, right associativity).

Notation "m ;; k" := (bind m (fun _ => k))
  (at level 61, right associativity).

(** [self.f] *)
Definition getattr {A} (self : ref) (f : Rotor -> A) : M A :=
  fun h => (Ok (f (h self)), h).

(** [self.f = v], with [set] the setter of [f] applied to [v] *)
Definition setattr (self : ref) (set : Rotor -> Rotor) : M unit :=
  fun h => (Ok tt, store h self (set (h self))).

(** [for x in l: body(x)] *)
Fixpoint for_each {A} (l : list A) (body : A -> M unit) : M unit :=
  match l with
  | [] => ret tt
  | x :: l' => body x ;; for_each l' body
  end.

(** [for x in l: acc = body(x, acc)] *)
Fixpoint for_fold {A B} (l : list A) (body : A -> B -> M B) (acc : B) : M B :=
  match l with
  | [] => ret acc
  | x :: l' => acc' <- body x acc ;; for_fold l' body acc'
  end.

(** [''.join(f(x) for x in text)] where [f] yields one character *)
Fixpoint join_map (f : ascii -> M ascii) (text : str) : M str :=
  match text with
  | [] => ret []
  | x :: text' => c <- f x ;; cs <- join_map f text' ;; ret (c :: cs)
  end.

(** ** class Rotor *)

(** [Rotor.rotate] *)
Definition Rotor_rotate (self : ref) (offset : Z) : M unit :=
  a <- getattr self alphabet ;;
  setattr self (set_alphabet (slice_from a offset ++ slice_to a offset)) ;;
  setattr self (set_rotations offset).

(** [Rotor.reset] *)
Definition Rotor_reset (self : ref) : M unit :=
  setattr self (set_alphabet ALPHABET) ;;
  o <- getattr self initial_offset ;;
  Rotor_rotate self o ;;
  setattr self (set_rotations 1).

(** [Rotor.__init__], run on the new object [self] *)
Definition Rotor_init (self : ref) (mappings : str) (offset : Z) : M unit :=
  setattr self (set_initial_offset offset) ;;
  Rotor_reset self ;;
  a <- getattr self alphabet ;;
  setattr self (set_forward_mappings (dict_of (zip a mappings))) ;;
  a <- getattr self alphabet ;;
  setattr self (set_reverse_mappings (dict_of (zip mappings a))).

(** [Rotor.encipher] *)
Definition Rotor_encipher (self : ref) (character : ascii) : M ascii :=
  d <- getattr self forward_mappings ;;
  lift (dict_getitem d character).

(** [Rotor.decipher] *)
Definition Rotor_decipher (self : ref) (character : ascii) : M ascii :=
  d <- getattr self reverse_mappings ;;
  lift (dict_getitem d character).

(** [Rotor.translate] *)
Definition Rotor_translate (self : ref) (contact_index : Z) (right : bool)
  : M Z :=
  a <- getattr self alphabet ;;
  x <- lift (getitem a contact_index) ;;
  x <- (if right then Rotor_encipher self x else Rotor_decipher self x) ;;
  a <- getattr self alphabet ;;
  lift (index a x).

(** ** class Reflector *)

Record Reflector : Type := mkReflector { mappings : dict }.

(** ['Mapping for {0} and {1} is invalid'.format(x, y)] *)
Definition invalid_mapping (x y : ascii) : str :=
  lit "Mapping for " ++ [x] ++ lit " and " ++ [y] ++ lit " is invalid".

(** the loop of [Reflector.__init__] over the keys still to visit *)
Fixpoint Reflector_check (d : dict) (keys : list ascii) : result unit :=
  match keys with
  | [] => Ok tt
  | x :: keys' =>
      y <~ dict_getitem d x ;;
      z <~ dict_getitem d y ;;
      if negb (Ascii.eqb x z) then Raise (ValueError (invalid_mapping x y))
      else Reflector_check d keys'
  end.

(** [Reflector.__init__]: the new reflector, or the exception raised *)
Definition Reflector_init (mappings : str) : result Reflector :=
  let d := dict_of (zip ALPHABET mappings) in
  _ <~ Reflector_check d (dict_keys d) ;;
  Ok (mkReflector d).

(** [Reflector.__getitem__] *)
Definition Reflector_getitem (self : Reflector) (character : ascii)
  : result ascii :=
  dict_getitem (mappings self) character.

(** ** class Machine *)

Record Machine : Type := mkMachine {
  rotors : list ref;
  reflector : Reflector
}.

(** [Machine.reset] *)
Definition Machine_reset (self : Machine) : M unit :=
  for_each (rotors self) Rotor_reset.

(** [Machine.encipher_character], lines 176-184: the signal goes through
    the rotors, the reflector, and the rotors in reverse. *)
Definition Machine_route (self : Machine) (x : ascii) : M Z :=
  contact_index <- lift (index ALPHABET x) ;;
  contact_index <-
    for_fold (rotors self)
      (fun rotor contact_index => Rotor_translate rotor contact_index true)
      contact_index ;;
  c <- lift (getitem ALPHABET contact_index) ;;
  x <- lift (Reflector_getitem (reflector self) c) ;;
  contact_index <- lift (index ALPHABET x) ;;
  for_fold (rev (rotors self))
    (fun rotor contact_index => Rotor_translate rotor contact_index false)
    contact_index.

(** [Machine.encipher_character], lines 186-191: the stepping. *)
Definition Machine_step (self : Machine) : M unit :=
  r0 <- lift (getitem (rotors self) 0) ;;
  Rotor_rotate r0 1 ;;
  for_each (range 1 (length (rotors self)))
    (fun index =>
       rotor <- lift (getitem (rotors self) index) ;;
       let turn_frequency := Z.of_nat (length ALPHABET) * index in
       prev <- lift (getitem (rotors self) (index - 1)) ;;
       n <- getattr prev rotations ;;
       if n mod turn_frequency =? 0 then Rotor_rotate rotor 1 else ret tt).

(** [Machine.encipher_character] *)
Definition Machine_encipher_character (self : Machine) (x : ascii) : M ascii :=
  let x := upper x in
  if negb (contains ALPHABET x) then ret x
  else
    contact_index <- Machine_route self x ;;
    Machine_step self ;;
    lift (getitem ALPHABET contact_index).

(** [Machine.encipher] *)
Definition Machine_encipher (self : Machine) (text : str) : M str :=
  join_map (Machine_encipher_character self) text.

(** [Machine.decipher] *)
Definition Machine_decipher (self : Machine) (text : str) : M str :=
  Machine_reset self ;;
  Machine_encipher self text.

(** ** Notions used to state the properties *)

(** The attributes of a rotor after [rotate(offset)] and after [reset()],
    as functions of its attributes before the call. *)
Definition rotated (offset : Z) (r : Rotor) : Rotor :=
  set_rotations offset
    (set_alphabet (slice_from (alphabet r) offset ++
                   slice_to (alphabet r) offset) r).

Definition reset_state (r : Rotor) : Rotor :=
  set_rotations 1 (rotated (initial_offset r) (set_alphabet ALPHABET r)).

(** What [translate] returns, as a function of the attributes it reads. *)
Definition translate_with (a : str) (d : dict) (contact_index : Z)
  : result Z :=
  x <~ getitem a contact_index ;;
  x <~ dict_getitem d x ;;
  index a x.

Definition translate_of (r : Rotor) (contact_index : Z) (right : bool)
  : result Z :=
  translate_with (alphabet r)
    (if right then forward_mappings r else reverse_mappings r)
    contact_index.

(** The contact after a stack of rotors, each with the attributes given. *)
Fixpoint chain_of (rs : list Rotor) (right : bool) (contact_index : Z)
  : result Z :=
  match rs with
  | [] => Ok contact_index
  | r :: rs' =>
      contact_index' <~ translate_of r contact_index right ;;
      chain_of rs' right contact_index'
  end.

(** The contact a machine ends on for the letter [x], and the character it
    yields, when its rotors have the attributes [rs]. *)
Definition route_of (rs : list Rotor) (R : Reflector) (x : ascii)
  : result Z :=
  contact_index <~ index ALPHABET x ;;
  contact_index <~ chain_of rs true contact_index ;;
  c <~ getitem ALPHABET contact_index ;;
  x <~ Reflector_getitem R c ;;
  contact_index <~ index ALPHABET x ;;
  chain_of (rev rs) false contact_index.

Definition cipher_of (rs : list Rotor) (R : Reflector) (x : ascii)
  : result ascii :=
  contact_index <~ route_of rs R x ;;
  getitem ALPHABET contact_index.

(** [r] is the state of a rotor object right after
    [Rotor(mappings, offset)]. *)
Definition constructed (mappings : str) (offset : Z) (r : Rotor) : Prop :=
  exists self h, r = snd (Rotor_init self mappings offset h) self.

(** The states a rotor built by [Rotor(mappings, offset)] can be in: the
    methods that write attributes are [rotate] and [reset]. *)
Inductive reachable (mappings : str) (offset : Z) : Rotor -> Prop :=
| reach_init r :
    constructed mappings offset r -> reachable mappings offset r
| reach_rotate self h k :
    reachable mappings offset (h self) ->
    reachable mappings offset (snd (Rotor_rotate self k h) self)
| reach_reset self h :
    reachable mappings offset (h self) ->
    reachable mappings offset (snd (Rotor_reset self h) self).

(** The wiring of a rotor is consistent: the rotated alphabet is a
    rearrangement of the alphabet and the two dictionaries are inverse
    bijections of it. *)
Record rotor_wf (r : Rotor) : Prop := mk_rotor_wf {
  wf_alphabet : Permutation (alphabet r) ALPHABET;
  wf_forward : forall x, In x ALPHABET ->
    exists y, In y ALPHABET /\ dict_find (forward_mappings r) x = Some y;
  wf_reverse : forall y, In y ALPHABET ->
    exists x, In x ALPHABET /\ dict_find (reverse_mappings r) y = Some x;
  wf_inverse : forall x y,
    dict_find (forward_mappings r) x = Some y <->
    dict_find (reverse_mappings r) y = Some x
}.

(** A reflector maps every letter to a letter and is its own inverse. *)
Definition reflector_wf (R : Reflector) : Prop :=
  forall x, In x ALPHABET ->
    exists y, In y ALPHABET /\ Reflector_getitem R x = Ok y /\
              Reflector_getitem R y = Ok x.

(** Two states of one rotor that differ by rotations only. *)
Definition same_wiring (r r' : Rotor) : Prop :=
  initial_offset r' = initial_offset r /\
  forward_mappings r' = forward_mappings r /\
  reverse_mappings r' = reverse_mappings r /\
  Permutation (alphabet r') (alphabet r).

(** [h'] comes from [h] by turning rotors of the machine. *)
Definition turned (m : Machine) (h h' : heap) : Prop :=
  (forall p, same_wiring (h p) (h' p)) /\
  (forall p, ~ In p (rotors m) -> h' p = h p).

(** The heap after every rotor in [l] was reset. *)
Definition reset_heap (l : list ref) (h : heap) : heap :=
  fun p => if existsb (Nat.eqb p) l then reset_state (h p) else h p.

(** [s] shifted cyclically by [n]: position [i] holds the symbol that was at
    position [i + n], counted modulo the length. *)
Definition cyclic_shift (s : str) (n : Z) : str :=
  map (fun i => nth (Z.to_nat ((Z.of_nat i + n) mod Z.of_nat (length s)))
                    s "000"%char)
      (seq 0 (length s)).

(** The mapping a reflector string stands for: the symbol at the position
    of [x] in the alphabet. *)
Definition mapping_of (mappings : str) (x : ascii) : option ascii :=
  match find ALPHABET x with
  | Some i => nth_error mappings i
  | None => None
  end.

(** [mapping(mapping(x))] *)
Definition mapping_twice (mappings : str) (x : ascii) : option ascii :=
  match mapping_of mappings x with
  | Some y => mapping_of mappings y
  | None => None
  end.

(** The stepping as the specification words it: the first rotor is rotated
    by one; then every later rotor, in order of its index [i], is rotated by
    one when the rotation value stored in its predecessor is a multiple of
    [26 * i]. *)
Fixpoint turnover_spec (i : Z) (prev : ref) (rest : list ref) : M unit :=
  match rest with
  | [] => ret tt
  | rotor :: rest' =>
      n <- getattr prev rotations ;;
      (if n mod (26 * i) =? 0 then Rotor_rotate rotor 1 else ret tt) ;;
      turnover_spec (i + 1) rotor rest'
  end.

Definition stepping_spec (rs : list ref) : M unit :=
  match rs with
  | [] => raise IndexError
  | r0 :: rest => Rotor_rotate r0 1 ;; turnover_spec 1 r0 rest
  end.

(** [w] is a permutation of the alphabet: 26 characters among which every
    letter occurs. *)
Definition is_permutation (w : str) : bool :=
  (length w =? 26)%nat && forallb (contains w) ALPHABET.

(** every character of [text] is one of the 26 letters *)
Definition is_alphabetic (text : str) : bool :=
  forallb (contains ALPHABET) text.

(** The rotors of [m] are objects fresh from their constructor, each built
    from a permutation of the alphabet. *)
Definition freshly_built (m : Machine) (h : heap) : Prop :=
  forall p, In p (rotors m) ->
    exists w o, is_permutation w = true /\ constructed w o (h p).

(** ** A machine to evaluate the code on *)

Definition blank_heap : heap := fun _ => mkRotor 0 [] 0 [] [].

Definition wiring_I : str := lit "EKMFLGDQVZNTOWYHXUSPAIBRCJ".
Definition wiring_II : str := lit "AJDKSIRUXBLHWTMCQGZNPYFVOE".
Definition wiring_III : str := lit "BDFHJLCPRTXVZNYEIWGAKMUSQO".
Definition wiring_B : str := lit "YRUHQSLDPXNGOKMIEBFZCWVJAT".

(** three rotors at offset 0, at the addresses 0, 1 and 2 *)
Definition heap3 : heap :=
  snd ((Rotor_init 0%nat wiring_I 0 ;;
        Rotor_init 1%nat wiring_II 0 ;;
        Rotor_init 2%nat wiring_III 0) blank_heap).

Definition reflector_B : Reflector :=
  mkReflector (dict_of (zip ALPHABET wiring_B)).

Definition machine3 : Machine := mkMachine [0; 1; 2]%nat reflector_B.

(** a rotor built at offset 3 and then turned by 5 *)
Definition heap_turned : heap :=
  snd ((Rotor_init 0%nat wiring_I 3 ;; Rotor_rotate 0%nat 5) blank_heap).

(** a machine without rotors *)
Definition machine0 : Machine := mkMachine [] reflector_B.

(** the same rotor object at both positions *)
Definition machine_shared : Machine := mkMachine [0; 0]%nat reflector_B.

(** ** Notions used by the further properties *)

(** the number of characters of [text] that [encipher_character] treats as
    letters *)
Definition letters (text : str) : nat :=
  length (filter (fun x => contains ALPHABET (upper x)) text).

(** [n] calls of [rotor.rotate()] in a row *)
Definition rotate_times (self : ref) (n : nat) : M unit :=
  for_each (repeat tt n) (fun _ => Rotor_rotate self 1).

(** The rotors of [m] were built from permutations of the alphabet and may
    have been rotated and reset since. *)
Definition well_wired (m : Machine) (h : heap) : Prop :=
  forall p, In p (rotors m) ->
    exists w o, is_permutation w = true /\ reachable w o (h p).

(* ================================================================== *)
(** * Part II: properties *)
(* ================================================================== *)

(** ** The alphabet and the string primitives *)

Lemma ALPHABET_length : length ALPHABET = 26%nat.
Proof. reflexivity. Qed.

Lemma ALPHABET_NoDup : NoDup ALPHABET.
Proof.
  unfold ALPHABET, lit; simpl.
  repeat (constructor; [simpl; intuition discriminate|]).
  constructor.
Qed.

Lemma contains_In (s : str) (c : ascii) : contains s c = true <-> In c s.
Proof.
  unfold contains. rewrite existsb_exists. split.
  - intros [x [Hin Heq]]. apply Ascii.eqb_eq in Heq. now subst.
  - intros Hin. exists c. split; [assumption | apply Ascii.eqb_refl].
Qed.

Lemma contains_false (s : str) (c : ascii) : contains s c = false <-> ~ In c s.
Proof.
  rewrite <- contains_In. destruct (contains s c); split; congruence.
Qed.

Lemma upper_alphabet (c : ascii) : In c ALPHABET -> upper c = c.
Proof.
  unfold ALPHABET, lit; simpl. intros H.
  repeat (destruct H as [H | H]; [subst c; reflexivity|]).
  contradiction.
Qed.


Lemma upper_idempotent (c : ascii) : upper (upper c) = upper c.
Proof.
  destruct c as [[] [] [] [] [] [] [] []]; reflexivity.
Qed.

Lemma find_nth_error (s : str) (c : ascii) (i : nat) :
  find s c = Some i -> nth_error s i = Some c.
Proof.
  revert i. induction s as [|x s IH]; intros i; simpl; [discriminate|].
  destruct (Ascii.eqb x c) eqn:E.
  - intros [= <-]. apply Ascii.eqb_eq in E. now subst.
  - destruct (find s c) as [j|]; simpl; [|discriminate].
    intros [= <-]. simpl. now apply IH.
Qed.

Lemma find_In (s : str) (c : ascii) : In c s -> exists i, find s c = Some i.
Proof.
  induction s as [|x s IH]; simpl; [contradiction|].
  intros H. destruct (Ascii.eqb x c) eqn:E; [now exists O|].
  destruct H as [-> | H]; [rewrite Ascii.eqb_refl in E; discriminate|].
  destruct (IH H) as [i ->]. now exists (S i).
Qed.

Lemma find_NoDup (s : str) (c : ascii) (i : nat) :
  NoDup s -> nth_error s i = Some c -> find s c = Some i.
Proof.
  intros Hnd. revert i. induction Hnd as [|x s Hx Hnd IH]; intros i.
  - destruct i; discriminate.
  - destruct i as [|i]; simpl.
    + intros [= ->]. now rewrite Ascii.eqb_refl.
    + intros Hi. destruct (Ascii.eqb x c) eqn:E.
      * apply Ascii.eqb_eq in E. subst x.
        exfalso. apply Hx. eapply nth_error_In; eassumption.
      * now rewrite (IH _ Hi).
Qed.

Lemma find_lt (s : str) (c : ascii) (i : nat) :
  find s c = Some i -> (i < length s)%nat.
Proof.
  intros H. apply find_nth_error in H.
  apply nth_error_Some. congruence.
Qed.

Lemma getitem_nat {A} (s : list A) (i : nat) :
  getitem s (Z.of_nat i) =
  match nth_error s i with Some a => Ok a | None => Raise IndexError end.
Proof.
  unfold getitem.
  destruct (Z.of_nat i <? 0) eqn:E; [apply Z.ltb_lt in E; lia|].
  rewrite Nat2Z.id.
  destruct (nth_error s i) eqn:Hn.
  - assert (i < length s)%nat by (apply nth_error_Some; congruence).
    replace (0 <=? Z.of_nat i) with true by (symmetry; apply Z.leb_le; lia).
    replace (Z.of_nat i <? Z.of_nat (length s)) with true
      by (symmetry; apply Z.ltb_lt; lia).
    reflexivity.
  - destruct ((0 <=? Z.of_nat i) && (Z.of_nat i <? Z.of_nat (length s)));
      reflexivity.
Qed.

(** A rotation [s[o:] + s[:o]] only rearranges [s]. *)
Lemma slice_rotation_Permutation {A} (s : list A) (o : Z) :
  Permutation (slice_from s o ++ slice_to s o) s.
Proof.
  unfold slice_from, slice_to.
  rewrite Permutation_app_comm. now rewrite firstn_skipn.
Qed.

(** ** Dictionaries built from pairs *)

Lemma dict_find_set (d : dict) (k v k' : ascii) :
  dict_find (dict_set d k v) k' =
  if Ascii.eqb k k' then Some v else dict_find d k'.
Proof.
  induction d as [|[k0 v0] d IH]; simpl.
  - reflexivity.
  - destruct (Ascii.eqb k0 k) eqn:E; simpl.
    + apply Ascii.eqb_eq in E. subst k0.
      destruct (Ascii.eqb k k'); reflexivity.
    + destruct (Ascii.eqb k0 k') eqn:E'.
      * apply Ascii.eqb_eq in E'. subst k0. now rewrite Ascii.eqb_sym, E.
      * exact IH.
Qed.

Lemma dict_set_fresh (d : dict) (k v : ascii) :
  ~ In k (dict_keys d) -> dict_set d k v = d ++ [(k, v)].
Proof.
  induction d as [|[k0 v0] d IH]; simpl; intros H; [reflexivity|].
  destruct (Ascii.eqb k0 k) eqn:E.
  - apply Ascii.eqb_eq in E. tauto.
  - rewrite IH; tauto.
Qed.

Lemma fold_dict_fresh (ps : list (ascii * ascii)) (d : dict) :
  NoDup (dict_keys d ++ map fst ps) ->
  fold_left dict_insert ps d = d ++ ps.
Proof.
  revert d. induction ps as [|[k v] ps IH]; intros d Hnd; simpl.
  - now rewrite app_nil_r.
  - unfold dict_insert at 2; simpl.
    assert (Hk : ~ In k (dict_keys d)).
    { intros Hin. apply NoDup_remove_2 in Hnd. apply Hnd.
      apply in_or_app. now left. }
    rewrite (dict_set_fresh _ _ _ Hk), IH.
    + now rewrite <- app_assoc.
    + unfold dict_keys in *. rewrite map_app. simpl.
      rewrite <- app_assoc. exact Hnd.
Qed.

Lemma dict_of_NoDup (ps : list (ascii * ascii)) :
  NoDup (map fst ps) -> dict_of ps = ps.
Proof.
  intros H. apply (fold_dict_fresh ps []). exact H.
Qed.

Lemma fold_dict_find_other (ps : list (ascii * ascii)) (d : dict) (k : ascii) :
  ~ In k (map fst ps) ->
  dict_find (fold_left dict_insert ps d) k = dict_find d k.
Proof.
  revert d. induction ps as [|[k0 v0] ps IH]; intros d H; simpl; [reflexivity|].
  simpl in H. rewrite IH by tauto.
  unfold dict_insert; simpl. rewrite dict_find_set.
  destruct (Ascii.eqb k0 k) eqn:E; [|reflexivity].
  apply Ascii.eqb_eq in E. tauto.
Qed.

Lemma dict_of_missing (ps : list (ascii * ascii)) (k : ascii) :
  ~ In k (map fst ps) -> dict_find (dict_of ps) k = None.
Proof.
  intros H. unfold dict_of. now rewrite (fold_dict_find_other ps [] k H).
Qed.

Lemma dict_find_In (d : dict) (k v : ascii) :
  dict_find d k = Some v -> In (k, v) d.
Proof.
  induction d as [|[k0 v0] d IH]; simpl; [discriminate|].
  destruct (Ascii.eqb k0 k) eqn:E.
  - apply Ascii.eqb_eq in E. intros [= ->]. left. now subst.
  - intros H. right. now apply IH.
Qed.

Lemma In_dict_find (d : dict) (k v : ascii) :
  NoDup (dict_keys d) -> In (k, v) d -> dict_find d k = Some v.
Proof.
  induction d as [|[k0 v0] d IH]; simpl; [contradiction|].
  intros Hnd [H | H].
  - injection H as -> ->. now rewrite Ascii.eqb_refl.
  - inversion Hnd as [|? ? Hk Hnd']; subst.
    destruct (Ascii.eqb k0 k) eqn:E.
    + apply Ascii.eqb_eq in E. subst k0. exfalso. apply Hk.
      change k with (fst (k, v)). now apply in_map.
    + now apply IH.
Qed.

Lemma In_combine_swap {A B} (l : list A) (l' : list B) (a : A) (b : B) :
  In (a, b) (combine l l') -> In (b, a) (combine l' l).
Proof.
  revert l'. induction l as [|x l IH]; intros [|y l']; simpl; try contradiction.
  intros [H | H]; [left; congruence | right; now apply IH].
Qed.

Lemma map_fst_combine {A B} (l : list A) (l' : list B) :
  length l = length l' -> map fst (combine l l') = l.
Proof.
  revert l'. induction l as [|x l IH]; intros [|y l']; simpl;
    try discriminate; [reflexivity|].
  intros [= H]. now rewrite IH.
Qed.

Lemma In_combine_total {A B} (l : list A) (l' : list B) (a : A) :
  length l = length l' -> In a l -> exists b, In (a, b) (combine l l').
Proof.
  revert l'. induction l as [|x l IH]; intros [|y l']; simpl;
    try discriminate; try contradiction.
  intros [= Hlen] [-> | H].
  - exists y. now left.
  - destruct (IH l' Hlen H) as [b Hb]. exists b. now right.
Qed.

(** A dictionary zipped from two duplicate-free sequences of the same
    length is a bijection, and zipping the other way round inverts it. *)
Lemma dict_of_zip_find (a b : str) (x y : ascii) :
  NoDup a -> length a = length b ->
  (dict_find (dict_of (zip a b)) x = Some y <-> In (x, y) (combine a b)).
Proof.
  intros Hnd Hlen. unfold zip.
  rewrite dict_of_NoDup by now rewrite map_fst_combine.
  split; [apply dict_find_In|].
  apply In_dict_find. unfold dict_keys. now rewrite map_fst_combine.
Qed.

Lemma dict_of_zip_inverse (a b : str) (x y : ascii) :
  NoDup a -> NoDup b -> length a = length b ->
  (dict_find (dict_of (zip a b)) x = Some y <->
   dict_find (dict_of (zip b a)) y = Some x).
Proof.
  intros Ha Hb Hlen.
  rewrite !dict_of_zip_find by congruence.
  split; apply In_combine_swap.
Qed.

Lemma dict_of_zip_total (a b : str) (x : ascii) :
  NoDup a -> length a = length b -> In x a ->
  exists y, In y b /\ dict_find (dict_of (zip a b)) x = Some y.
Proof.
  intros Hnd Hlen Hx.
  destruct (In_combine_total a b x Hlen Hx) as [y Hy].
  exists y. split; [eapply in_combine_r; eassumption|].
  now apply dict_of_zip_find.
Qed.

(** ** The heap *)

Lemma store_eq (h : heap) (p : ref) (r : Rotor) : store h p r p = r.
Proof. unfold store. now rewrite Nat.eqb_refl. Qed.

Lemma store_neq (h : heap) (p q : ref) (r : Rotor) :
  q <> p -> store h p r q = h q.
Proof.
  intros H. unfold store. apply Nat.eqb_neq in H. now rewrite H.
Qed.

Lemma store_store (h : heap) (p : ref) (r1 r2 : Rotor) :
  store (store h p r1) p r2 = store h p r2.
Proof.
  apply functional_extensionality. intros q. unfold store.
  destruct (Nat.eqb q p); reflexivity.
Qed.

(** ** Running the monad *)

Lemma bind_ok {A B} (m : M A) (k : A -> M B) (h h' : heap) (a : A) :
  m h = (Ok a, h') -> bind m k h = k a h'.
Proof. intros H. unfold bind. now rewrite H. Qed.

Lemma bind_raise {A B} (m : M A) (k : A -> M B) (h h' : heap) (e : exn) :
  m h = (Raise e, h') -> bind m k h = (Raise e, h').
Proof. intros H. unfold bind. now rewrite H. Qed.

Lemma getattr_run {A} (self : ref) (f : Rotor -> A) (h : heap) :
  getattr self f h = (Ok (f (h self)), h).
Proof. reflexivity. Qed.

Lemma setattr_run (self : ref) (set : Rotor -> Rotor) (h : heap) :
  setattr self set h = (Ok tt, store h self (set (h self))).
Proof. reflexivity. Qed.

Lemma lift_run {A} (r : result A) (h : heap) : lift r h = (r, h).
Proof. reflexivity. Qed.

Lemma ret_run {A} (a : A) (h : heap) : ret a h = (Ok a, h).
Proof. reflexivity. Qed.

(** ** What the rotor methods do to the heap *)

Lemma Rotor_rotate_run (self : ref) (offset : Z) (h : heap) :
  Rotor_rotate self offset h = (Ok tt, store h self (rotated offset (h self))).
Proof.
  unfold Rotor_rotate, bind, getattr, setattr. cbn.
  rewrite store_eq, store_store. reflexivity.
Qed.

Lemma Rotor_reset_run (self : ref) (h : heap) :
  Rotor_reset self h = (Ok tt, store h self (reset_state (h self))).
Proof.
  unfold Rotor_reset.
  rewrite (bind_ok _ _ _ _ _ (setattr_run _ _ _)).
  rewrite (bind_ok _ _ _ _ _ (getattr_run _ _ _)).
  rewrite (bind_ok _ _ _ _ _ (Rotor_rotate_run _ _ _)).
  rewrite setattr_run, !store_eq, !store_store. reflexivity.
Qed.

Lemma Rotor_init_run (self : ref) (mappings : str) (offset : Z) (h : heap) :
  Rotor_init self mappings offset h =
  let a := slice_from ALPHABET offset ++ slice_to ALPHABET offset in
  (Ok tt, store h self (mkRotor offset a 1 (dict_of (zip a mappings))
                                           (dict_of (zip mappings a)))).
Proof.
  unfold Rotor_init.
  rewrite (bind_ok _ _ _ _ _ (setattr_run _ _ _)).
  rewrite (bind_ok _ _ _ _ _ (Rotor_reset_run _ _)).
  rewrite (bind_ok _ _ _ _ _ (getattr_run _ _ _)).
  rewrite (bind_ok _ _ _ _ _ (setattr_run _ _ _)).
  rewrite (bind_ok _ _ _ _ _ (getattr_run _ _ _)).
  rewrite setattr_run, !store_eq, !store_store. reflexivity.
Qed.

Lemma Rotor_translate_run (self : ref) (i : Z) (right : bool) (h : heap) :
  Rotor_translate self i right h = (translate_of (h self) i right, h).
Proof.
  unfold Rotor_translate, translate_of, translate_with, bind, getattr, lift.
  destruct (getitem (alphabet (h self)) i) as [x|e]; cbn; [|reflexivity].
  destruct right; unfold Rotor_encipher, Rotor_decipher, bind, getattr, lift;
    cbn.
  - destruct (dict_getitem (forward_mappings (h self)) x); reflexivity.
  - destruct (dict_getitem (reverse_mappings (h self)) x); reflexivity.
Qed.

Lemma reset_state_eq (r : Rotor) :
  reset_state r =
  mkRotor (initial_offset r)
          (slice_from ALPHABET (initial_offset r) ++
           slice_to ALPHABET (initial_offset r))
          1 (forward_mappings r) (reverse_mappings r).
Proof. reflexivity. Qed.

Lemma reset_state_idempotent (r : Rotor) :
  reset_state (reset_state r) = reset_state r.
Proof. reflexivity. Qed.

Lemma constructed_eq (w : str) (o : Z) (r : Rotor) :
  constructed w o r ->
  let a := slice_from ALPHABET o ++ slice_to ALPHABET o in
  r = mkRotor o a 1 (dict_of (zip a w)) (dict_of (zip w a)).
Proof.
  intros [self [h ->]]. rewrite Rotor_init_run. cbn. now rewrite store_eq.
Qed.

Lemma constructed_reset_state (w : str) (o : Z) (r : Rotor) :
  constructed w o r -> reset_state r = r.
Proof.
  intros H. apply constructed_eq in H. cbn in H. subst r. reflexivity.
Qed.

(** ** The path through one rotor is reversible *)

Lemma translate_with_inverse (a : str) (d1 d2 : dict) (i : nat) :
  NoDup a ->
  (forall x, In x a -> exists y, In y a /\ dict_find d1 x = Some y) ->
  (forall x y, dict_find d1 x = Some y -> dict_find d2 y = Some x) ->
  (i < length a)%nat ->
  exists j, (j < length a)%nat /\
    translate_with a d1 (Z.of_nat i) = Ok (Z.of_nat j) /\
    translate_with a d2 (Z.of_nat j) = Ok (Z.of_nat i).
Proof.
  intros Hnd Htot Hinv Hi.
  destruct (nth_error a i) as [x|] eqn:Hx;
    [|apply nth_error_None in Hx; lia].
  destruct (Htot x (nth_error_In _ _ Hx)) as [y [Hy Hxy]].
  destruct (find_In a y Hy) as [j Hj].
  exists j. split; [now apply find_lt in Hj|].
  unfold translate_with, dict_getitem, index.
  rewrite !getitem_nat, Hx. cbn. rewrite Hxy. cbn. rewrite Hj.
  split; [reflexivity|].
  rewrite (find_nth_error _ _ _ Hj). cbn.
  rewrite (Hinv _ _ Hxy). cbn.
  now rewrite (find_NoDup _ _ _ Hnd Hx).
Qed.

Lemma rotor_wf_NoDup (r : Rotor) : rotor_wf r -> NoDup (alphabet r).
Proof.
  intros H. apply (Permutation_NoDup (Permutation_sym (wf_alphabet r H))).
  exact ALPHABET_NoDup.
Qed.

Lemma rotor_wf_length (r : Rotor) : rotor_wf r -> length (alphabet r) = 26%nat.
Proof.
  intros H. rewrite (Permutation_length (wf_alphabet r H)). reflexivity.
Qed.

Lemma rotor_wf_In (r : Rotor) (x : ascii) :
  rotor_wf r -> (In x (alphabet r) <-> In x ALPHABET).
Proof.
  intros H. split; apply Permutation_in;
    [exact (wf_alphabet r H) | exact (Permutation_sym (wf_alphabet r H))].
Qed.

Lemma translate_forward_reverse (r : Rotor) (i : nat) :
  rotor_wf r -> (i < 26)%nat ->
  exists j, (j < 26)%nat /\
    translate_of r (Z.of_nat i) true = Ok (Z.of_nat j) /\
    translate_of r (Z.of_nat j) false = Ok (Z.of_nat i).
Proof.
  intros Hwf Hi. unfold translate_of.
  rewrite <- (rotor_wf_length r Hwf) in *.
  apply translate_with_inverse; trivial.
  - now apply rotor_wf_NoDup.
  - intros x Hx. apply (rotor_wf_In r x Hwf) in Hx.
    destruct (wf_forward r Hwf x Hx) as [y [Hy Hxy]].
    exists y. split; [now apply (rotor_wf_In r y Hwf)|assumption].
  - intros x y. apply (wf_inverse r Hwf).
Qed.

Lemma translate_reverse_forward (r : Rotor) (j : nat) :
  rotor_wf r -> (j < 26)%nat ->
  exists i, (i < 26)%nat /\
    translate_of r (Z.of_nat j) false = Ok (Z.of_nat i) /\
    translate_of r (Z.of_nat i) true = Ok (Z.of_nat j).
Proof.
  intros Hwf Hj. unfold translate_of.
  rewrite <- (rotor_wf_length r Hwf) in *.
  apply translate_with_inverse; trivial.
  - now apply rotor_wf_NoDup.
  - intros y Hy. apply (rotor_wf_In r y Hwf) in Hy.
    destruct (wf_reverse r Hwf y Hy) as [x [Hx Hyx]].
    exists x. split; [now apply (rotor_wf_In r x Hwf)|assumption].
  - intros y x. apply (wf_inverse r Hwf).
Qed.

(** ** Rotors that were constructed from a permutation are consistent, and
    stay so *)

Lemma constructed_wf (w : str) (o : Z) (r : Rotor) :
  Permutation w ALPHABET -> constructed w o r -> rotor_wf r.
Proof.
  intros Hw Hc. apply constructed_eq in Hc. cbn in Hc. subst r.
  set (a := slice_from ALPHABET o ++ slice_to ALPHABET o).
  assert (Ha : Permutation a ALPHABET) by apply slice_rotation_Permutation.
  assert (Hnda : NoDup a)
    by (apply (Permutation_NoDup (Permutation_sym Ha)), ALPHABET_NoDup).
  assert (Hndw : NoDup w)
    by (apply (Permutation_NoDup (Permutation_sym Hw)), ALPHABET_NoDup).
  assert (Hlen : length a = length w)
    by (rewrite (Permutation_length Ha), (Permutation_length Hw); reflexivity).
  constructor; cbn.
  - exact Ha.
  - intros x Hx.
    destruct (dict_of_zip_total a w x Hnda Hlen) as [y [Hy Hxy]].
    + now apply (Permutation_in _ (Permutation_sym Ha)).
    + exists y. split; [now apply (Permutation_in _ Hw)|assumption].
  - intros y Hy.
    destruct (dict_of_zip_total w a y Hndw (eq_sym Hlen)) as [x [Hx Hyx]].
    + now apply (Permutation_in _ (Permutation_sym Hw)).
    + exists x. split; [now apply (Permutation_in _ Ha)|assumption].
  - intros x y. now apply dict_of_zip_inverse.
Qed.

Lemma same_wiring_refl (r : Rotor) : same_wiring r r.
Proof. repeat split; reflexivity. Qed.

Lemma same_wiring_trans (r1 r2 r3 : Rotor) :
  same_wiring r1 r2 -> same_wiring r2 r3 -> same_wiring r1 r3.
Proof.
  intros (H1 & H2 & H3 & H4) (K1 & K2 & K3 & K4).
  repeat split; try congruence.
  now rewrite K4.
Qed.

Lemma same_wiring_rotated (k : Z) (r : Rotor) : same_wiring r (rotated k r).
Proof.
  repeat split; cbn. apply slice_rotation_Permutation.
Qed.

Lemma same_wiring_wf (r r' : Rotor) :
  same_wiring r r' -> rotor_wf r -> rotor_wf r'.
Proof.
  intros (H1 & H2 & H3 & H4) [Ha Hf Hr Hi].
  constructor; rewrite ?H2, ?H3; trivial.
  now rewrite H4.
Qed.

Lemma same_wiring_reset_state (r r' : Rotor) :
  same_wiring r r' -> reset_state r' = reset_state r.
Proof.
  intros (H1 & H2 & H3 & _). rewrite !reset_state_eq. congruence.
Qed.

Lemma reset_state_wf (r : Rotor) : rotor_wf r -> rotor_wf (reset_state r).
Proof.
  intros [Ha Hf Hr Hi]. constructor; cbn; trivial.
  apply slice_rotation_Permutation.
Qed.

Lemma reachable_wf (w : str) (o : Z) (r : Rotor) :
  Permutation w ALPHABET -> reachable w o r -> rotor_wf r.
Proof.
  intros Hw H. induction H as [r Hc | self h k _ IH | self h _ IH].
  - eapply constructed_wf; eassumption.
  - rewrite Rotor_rotate_run. cbn. rewrite store_eq.
    eapply same_wiring_wf; [apply same_wiring_rotated | exact IH].
  - rewrite Rotor_reset_run. cbn. rewrite store_eq.
    now apply reset_state_wf.
Qed.

(** ** The path through the rotor stack and the reflector *)

Lemma chain_of_app (rs1 rs2 : list Rotor) (right : bool) (i : Z) :
  chain_of (rs1 ++ rs2) right i =
  (k <~ chain_of rs1 right i ;; chain_of rs2 right k).
Proof.
  revert i. induction rs1 as [|r rs1 IH]; intros i; simpl; [reflexivity|].
  destruct (translate_of r i right); simpl; [apply IH | reflexivity].
Qed.

Lemma chain_forward_reverse (rs : list Rotor) (i : nat) :
  Forall rotor_wf rs -> (i < 26)%nat ->
  exists j, (j < 26)%nat /\
    chain_of rs true (Z.of_nat i) = Ok (Z.of_nat j) /\
    chain_of (rev rs) false (Z.of_nat j) = Ok (Z.of_nat i).
Proof.
  intros Hwf. revert i. induction Hwf as [|r rs Hr Hrs IH]; intros i Hi.
  - exists i. now repeat split.
  - destruct (translate_forward_reverse r i Hr Hi) as [k [Hk [H1 H2]]].
    destruct (IH k Hk) as [j [Hj [H3 H4]]].
    exists j. split; [assumption|]. simpl.
    rewrite H1. simpl. split; [assumption|].
    rewrite chain_of_app, H4. simpl. now rewrite H2.
Qed.

Lemma chain_reverse_forward (rs : list Rotor) (j : nat) :
  Forall rotor_wf rs -> (j < 26)%nat ->
  exists i, (i < 26)%nat /\
    chain_of (rev rs) false (Z.of_nat j) = Ok (Z.of_nat i) /\
    chain_of rs true (Z.of_nat i) = Ok (Z.of_nat j).
Proof.
  intros Hwf. revert j. induction Hwf as [|r rs Hr Hrs IH]; intros j Hj.
  - exists j. now repeat split.
  - destruct (IH j Hj) as [k [Hk [H1 H2]]].
    destruct (translate_reverse_forward r k Hr Hk) as [i [Hi [H3 H4]]].
    exists i. split; [assumption|]. simpl.
    rewrite chain_of_app, H1. simpl. rewrite H3, H4. simpl.
    now split.
Qed.

Lemma alphabet_index (x : ascii) :
  In x ALPHABET ->
  exists i, (i < 26)%nat /\ index ALPHABET x = Ok (Z.of_nat i) /\
            getitem ALPHABET (Z.of_nat i) = Ok x.
Proof.
  intros Hx. destruct (find_In _ _ Hx) as [i Hi].
  exists i. split; [apply (find_lt _ _ _ Hi)|].
  unfold index. rewrite Hi, getitem_nat, (find_nth_error _ _ _ Hi).
  now split.
Qed.

Lemma alphabet_getitem (i : nat) :
  (i < 26)%nat ->
  exists x, In x ALPHABET /\ getitem ALPHABET (Z.of_nat i) = Ok x /\
            index ALPHABET x = Ok (Z.of_nat i).
Proof.
  intros Hi. destruct (nth_error ALPHABET i) as [x|] eqn:Hx;
    [|apply nth_error_None in Hx; rewrite ALPHABET_length in Hx; lia].
  exists x. split; [eapply nth_error_In; eassumption|].
  rewrite getitem_nat, Hx. split; [reflexivity|].
  unfold index. now rewrite (find_NoDup _ _ _ ALPHABET_NoDup Hx).
Qed.

(** At a fixed position of the rotors the machine swaps letters in pairs. *)
Lemma cipher_of_involution (rs : list Rotor) (R : Reflector) (x : ascii) :
  Forall rotor_wf rs -> reflector_wf R -> In x ALPHABET ->
  exists y, In y ALPHABET /\ cipher_of rs R x = Ok y /\ cipher_of rs R y = Ok x.
Proof.
  intros Hrs HR Hx.
  destruct (alphabet_index x Hx) as [i0 [Hi0 [Ix Gx]]].
  destruct (chain_forward_reverse rs i0 Hrs Hi0) as [j [Hj [F1 B1]]].
  destruct (alphabet_getitem j Hj) as [c [Hc [Gc Ic]]].
  destruct (HR c Hc) as [c' [Hc' [R1 R2]]].
  destruct (alphabet_index c' Hc') as [j' [Hj' [Ic' Gc']]].
  destruct (chain_reverse_forward rs j' Hrs Hj') as [i1 [Hi1 [B2 F2]]].
  destruct (alphabet_getitem i1 Hi1) as [y [Hy [Gy Iy]]].
  exists y. split; [assumption|].
  unfold cipher_of, route_of.
  rewrite Ix, Iy; simpl. rewrite F1, F2; simpl. rewrite Gc, Gc'; simpl.
  rewrite R1, R2; simpl. rewrite Ic, Ic'; simpl. rewrite B1, B2; simpl.
  now split.
Qed.

Lemma for_fold_translate_run (l : list ref) (right : bool) (i : Z) (h : heap) :
  for_fold l (fun rotor ci => Rotor_translate rotor ci right) i h =
  (chain_of (map h l) right i, h).
Proof.
  revert i. induction l as [|p l IH]; intros i; simpl; [reflexivity|].
  unfold bind. rewrite Rotor_translate_run.
  destruct (translate_of (h p) i right); simpl; [apply IH | reflexivity].
Qed.

Lemma Machine_route_run (m : Machine) (x : ascii) (h : heap) :
  Machine_route m x h = (route_of (map h (rotors m)) (reflector m) x, h).
Proof.
  unfold Machine_route, route_of, bind, lift.
  destruct (index ALPHABET x) as [i|]; simpl; [|reflexivity].
  rewrite for_fold_translate_run.
  destruct (chain_of (map h (rotors m)) true i) as [j|]; simpl; [|reflexivity].
  destruct (getitem ALPHABET j) as [c|]; simpl; [|reflexivity].
  destruct (Reflector_getitem (reflector m) c) as [c'|]; simpl; [|reflexivity].
  destruct (index ALPHABET c') as [j'|]; simpl; [|reflexivity].
  rewrite for_fold_translate_run, map_rev. reflexivity.
Qed.

(** ** The stepping *)

Lemma nth_error_middle {A} (pre rest : list A) (x : A) :
  nth_error (pre ++ x :: rest) (length pre) = Some x.
Proof.
  rewrite nth_error_app2 by lia. now rewrite Nat.sub_diag.
Qed.

Lemma nth_error_after {A} (pre rest : list A) (x y : A) :
  nth_error (pre ++ x :: y :: rest) (S (length pre)) = Some y.
Proof.
  rewrite nth_error_app2 by lia.
  replace (S (length pre) - length pre)%nat with 1%nat by lia. reflexivity.
Qed.

(** The loop over [range(1, len(self.rotors))], entered at index
    [len(pre) + 1], does what the specification says of the rotors after
    [prev]. *)
Lemma turnover_loop (rest pre : list ref) (prev : ref) (h : heap) :
  let rs := pre ++ prev :: rest in
  for_each (map Z.of_nat (seq (S (length pre)) (length rest)))
    (fun index =>
       rotor <- lift (getitem rs index) ;;
       let turn_frequency := Z.of_nat (length ALPHABET) * index in
       prev <- lift (getitem rs (index - 1)) ;;
       n <- getattr prev rotations ;;
       if n mod turn_frequency =? 0 then Rotor_rotate rotor 1 else ret tt) h
  = turnover_spec (Z.of_nat (S (length pre))) prev rest h.
Proof.
  revert pre prev h. induction rest as [|r rest IH]; intros pre prev h rs.
  - reflexivity.
  - cbn [length seq map for_each turnover_spec].
    assert (Hr : getitem rs (Z.of_nat (S (length pre))) = Ok r).
    { rewrite getitem_nat. unfold rs. now rewrite nth_error_after. }
    assert (Hp : getitem rs (Z.of_nat (S (length pre)) - 1) = Ok prev).
    { replace (Z.of_nat (S (length pre)) - 1) with (Z.of_nat (length pre))
        by lia.
      rewrite getitem_nat. unfold rs. now rewrite nth_error_middle. }
    change (Z.of_nat (length ALPHABET)) with 26.
    unfold bind at 1 2 3 4. rewrite Hr, Hp. unfold lift, getattr.
    cbv beta iota.
    unfold bind at 4 5. cbv beta iota.
    clear Hr Hp.
    destruct (rotations (h prev) mod (26 * Z.of_nat (S (length pre))) =? 0);
      [rewrite Rotor_rotate_run | unfold ret];
      unfold rs;
      change (pre ++ prev :: r :: rest) with (pre ++ [prev] ++ r :: rest);
      rewrite app_assoc;
      replace (Z.of_nat (S (length pre)) + 1)
        with (Z.of_nat (S (length (pre ++ [prev]))))
        by (rewrite last_length; lia);
      rewrite <- (last_length pre prev);
      exact (IH (pre ++ [prev]) r _).
Qed.

Lemma Machine_step_spec (m : Machine) (h : heap) :
  Machine_step m h = stepping_spec (rotors m) h.
Proof.
  unfold Machine_step. destruct (rotors m) as [|r0 rest] eqn:E.
  - reflexivity.
  - unfold stepping_spec, range.
    replace (length (r0 :: rest) - 1)%nat with (length rest)
      by (simpl; lia).
    rewrite (bind_ok (lift (getitem (r0 :: rest) 0)) _ h h r0 eq_refl).
    rewrite !(bind_ok _ _ _ _ _ (Rotor_rotate_run r0 1 h)).
    exact (turnover_loop rest [] r0 _).
Qed.

Lemma turnover_spec_turned (rest : list ref) (i : Z) (prev : ref) (h : heap) :
  exists h', turnover_spec i prev rest h = (Ok tt, h') /\
    (forall p, same_wiring (h p) (h' p)) /\
    (forall p, ~ In p rest -> h' p = h p).
Proof.
  revert i prev h. induction rest as [|r rest IH]; intros i prev h.
  - exists h. split; [reflexivity|]. split; [|reflexivity].
    intros p. apply same_wiring_refl.
  - cbn [turnover_spec].
    rewrite (bind_ok _ _ _ _ _ (getattr_run prev rotations h)).
    destruct (rotations (h prev) mod (26 * i) =? 0).
    + rewrite (bind_ok _ _ _ _ _ (Rotor_rotate_run r 1 h)).
      destruct (IH (i + 1) r (store h r (rotated 1 (h r))))
        as [h' [Hrun [Hw Hf]]].
      exists h'. split; [exact Hrun|]. split.
      * intros p. eapply same_wiring_trans; [|apply Hw].
        unfold store. destruct (Nat.eqb p r) eqn:E.
        -- apply Nat.eqb_eq in E. subst p. apply same_wiring_rotated.
        -- apply same_wiring_refl.
      * intros p Hp. simpl in Hp. rewrite Hf by tauto.
        apply store_neq. intros ->. tauto.
    + rewrite (bind_ok _ _ _ _ _ (ret_run tt h)).
      destruct (IH (i + 1) r h) as [h' [Hrun [Hw Hf]]].
      exists h'. split; [exact Hrun|]. split; [exact Hw|].
      intros p Hp. simpl in Hp. apply Hf. tauto.
Qed.

Lemma stepping_spec_turned (r0 : ref) (rest : list ref) (h : heap) :
  exists h', stepping_spec (r0 :: rest) h = (Ok tt, h') /\
    (forall p, same_wiring (h p) (h' p)) /\
    (forall p, ~ In p (r0 :: rest) -> h' p = h p).
Proof.
  cbn [stepping_spec].
  rewrite (bind_ok _ _ _ _ _ (Rotor_rotate_run r0 1 h)).
  destruct (turnover_spec_turned rest 1 r0 (store h r0 (rotated 1 (h r0))))
    as [h' [Hrun [Hw Hf]]].
  exists h'. split; [exact Hrun|]. split.
  - intros p. eapply same_wiring_trans; [|apply Hw].
    unfold store. destruct (Nat.eqb p r0) eqn:E.
    + apply Nat.eqb_eq in E. subst p. apply same_wiring_rotated.
    + apply same_wiring_refl.
  - intros p Hp. simpl in Hp. rewrite Hf by tauto.
    apply store_neq. intros ->. tauto.
Qed.

(** While every stored rotation value is 1, no turnover happens. *)
Lemma turnover_spec_idle (rest : list ref) (i : Z) (prev : ref) (h : heap) :
  1 <= i -> rotations (h prev) = 1 ->
  (forall q, In q rest -> rotations (h q) = 1) ->
  turnover_spec i prev rest h = (Ok tt, h).
Proof.
  revert i prev. induction rest as [|r rest IH]; intros i prev Hi Hp Hrest.
  - reflexivity.
  - cbn [turnover_spec].
    rewrite (bind_ok _ _ _ _ _ (getattr_run prev rotations h)).
    rewrite Hp, Z.mod_small by lia.
    change (1 =? 0) with false.
    rewrite (bind_ok _ _ _ _ _ (ret_run tt h)).
    apply IH; [lia | apply Hrest; now left |].
    intros q Hq. apply Hrest. now right.
Qed.

Lemma stepping_spec_idle (r0 : ref) (rest : list ref) (h : heap) :
  (forall q, In q rest -> rotations (h q) = 1) ->
  stepping_spec (r0 :: rest) h = (Ok tt, store h r0 (rotated 1 (h r0))).
Proof.
  intros Hrest. cbn [stepping_spec].
  rewrite (bind_ok _ _ _ _ _ (Rotor_rotate_run r0 1 h)).
  apply turnover_spec_idle; [lia | now rewrite store_eq |].
  intros q Hq. unfold store. destruct (Nat.eqb q r0); [reflexivity|].
  now apply Hrest.
Qed.

(** ** One character *)

Lemma encipher_character_other (m : Machine) (x : ascii) (h : heap) :
  contains ALPHABET (upper x) = false ->
  Machine_encipher_character m x h = (Ok (upper x), h).
Proof.
  intros H. unfold Machine_encipher_character. rewrite H. reflexivity.
Qed.

Lemma encipher_character_letter (m : Machine) (x : ascii) (h : heap) :
  contains ALPHABET (upper x) = true ->
  Machine_encipher_character m x h =
  match route_of (map h (rotors m)) (reflector m) (upper x) with
  | Ok contact_index =>
      match stepping_spec (rotors m) h with
      | (Ok _, h') => (getitem ALPHABET contact_index, h')
      | (Raise e, h') => (Raise e, h')
      end
  | Raise e => (Raise e, h)
  end.
Proof.
  intros H. unfold Machine_encipher_character. rewrite H. cbn [negb].
  unfold bind at 1. rewrite Machine_route_run.
  destruct (route_of (map h (rotors m)) (reflector m) (upper x)) as [ci|e];
    [|reflexivity].
  unfold bind. rewrite Machine_step_spec.
  destruct (stepping_spec (rotors m) h) as [[[]|e] h']; reflexivity.
Qed.

Lemma turned_refl (m : Machine) (h : heap) : turned m h h.
Proof.
  split; [intros p; apply same_wiring_refl | reflexivity].
Qed.

Lemma turned_trans (m : Machine) (h1 h2 h3 : heap) :
  turned m h1 h2 -> turned m h2 h3 -> turned m h1 h3.
Proof.
  intros [H1 H2] [K1 K2]. split.
  - intros p. eapply same_wiring_trans; [apply H1 | apply K1].
  - intros p Hp. now rewrite K2, H2.
Qed.

Lemma turned_wf (m : Machine) (h h' : heap) :
  turned m h h' ->
  (forall p, In p (rotors m) -> rotor_wf (h p)) ->
  forall p, In p (rotors m) -> rotor_wf (h' p).
Proof.
  intros [Hw _] Hwf p Hp.
  apply (same_wiring_wf (h p)); [apply Hw | now apply Hwf].
Qed.

(** At a fixed position of the rotors a letter and its cipher letter are
    swapped, and the rotors end in the same position for both. *)
Lemma encipher_character_involution (m : Machine) (x : ascii) (h : heap) :
  rotors m <> [] ->
  (forall p, In p (rotors m) -> rotor_wf (h p)) ->
  reflector_wf (reflector m) ->
  In x ALPHABET ->
  exists y h', In y ALPHABET /\
    Machine_encipher_character m x h = (Ok y, h') /\
    Machine_encipher_character m y h = (Ok x, h') /\
    turned m h h'.
Proof.
  intros Hne Hwf HR Hx.
  assert (Hrs : Forall rotor_wf (map h (rotors m))).
  { apply Forall_map, Forall_forall. exact Hwf. }
  destruct (cipher_of_involution _ _ _ Hrs HR Hx) as [y [Hy [Hxy Hyx]]].
  destruct (rotors m) as [|r0 rest] eqn:E; [congruence|].
  destruct (stepping_spec_turned r0 rest h) as [h' [Hstep [Hw Hf]]].
  exists y, h'. split; [assumption|].
  rewrite !encipher_character_letter
    by (rewrite upper_alphabet by assumption; now apply contains_In).
  rewrite !upper_alphabet by assumption.
  rewrite E, Hstep.
  unfold cipher_of in Hxy, Hyx.
  destruct (route_of (map h (r0 :: rest)) (reflector m) x) as [i|];
    [|discriminate].
  destruct (route_of (map h (r0 :: rest)) (reflector m) y) as [j|];
    [|discriminate].
  simpl in Hxy, Hyx. rewrite Hxy, Hyx.
  split; [reflexivity|]. split; [reflexivity|]. split; [exact Hw|].
  intros p Hp. apply Hf. now rewrite <- E.
Qed.

(** ** A whole text *)

Lemma Machine_encipher_cons (m : Machine) (x : ascii) (text : str) (h : heap) :
  Machine_encipher m (x :: text) h =
  (c <- Machine_encipher_character m x ;;
   cs <- Machine_encipher m text ;;
   ret (c :: cs)) h.
Proof. reflexivity. Qed.

(** Two runs from the same rotor positions, one on a text of letters and
    one on its cipher text, yield each other's input and end in the same
    positions. *)
Lemma encipher_involution (m : Machine) (text : str) :
  rotors m <> [] ->
  reflector_wf (reflector m) ->
  Forall (fun x => In x ALPHABET) text ->
  forall h, (forall p, In p (rotors m) -> rotor_wf (h p)) ->
  exists cipher h', Forall (fun x => In x ALPHABET) cipher /\
    Machine_encipher m text h = (Ok cipher, h') /\
    Machine_encipher m cipher h = (Ok text, h') /\
    turned m h h'.
Proof.
  intros Hne HR Htext.
  induction Htext as [|x text Hx Htext IH]; intros h Hwf.
  - exists [], h. split; [constructor|]. split; [reflexivity|].
    split; [reflexivity | apply turned_refl].
  - destruct (encipher_character_involution m x h Hne Hwf HR Hx)
      as [y [h1 [Hy [Hxy [Hyx Ht1]]]]].
    destruct (IH h1 (turned_wf m h h1 Ht1 Hwf))
      as [cipher [h' [Hc [Hrun [Hback Ht2]]]]].
    exists (y :: cipher), h'. split; [now constructor|].
    rewrite !Machine_encipher_cons.
    rewrite (bind_ok _ _ _ _ _ Hxy), (bind_ok _ _ _ _ _ Hyx).
    rewrite (bind_ok _ _ _ _ _ Hrun), (bind_ok _ _ _ _ _ Hback).
    split; [reflexivity|]. split; [reflexivity|].
    eapply turned_trans; eassumption.
Qed.

(** ** Reset *)

Lemma for_each_reset_run (l : list ref) (h : heap) :
  for_each l Rotor_reset h = (Ok tt, reset_heap l h).
Proof.
  revert h. induction l as [|q l IH]; intros h.
  - reflexivity.
  - cbn [for_each].
    rewrite (bind_ok _ _ _ _ _ (Rotor_reset_run q h)), IH.
    f_equal. apply functional_extensionality. intros p.
    unfold reset_heap, store. cbn [existsb].
    destruct (Nat.eqb p q) eqn:E; cbn [orb].
    + apply Nat.eqb_eq in E. subst p.
      destruct (existsb (Nat.eqb q) l); reflexivity.
    + reflexivity.
Qed.

Lemma Machine_reset_run (m : Machine) (h : heap) :
  Machine_reset m h = (Ok tt, reset_heap (rotors m) h).
Proof. apply for_each_reset_run. Qed.

Lemma existsb_eqb_In (p : ref) (l : list ref) :
  existsb (Nat.eqb p) l = true <-> In p l.
Proof.
  rewrite existsb_exists. split.
  - intros [q [Hq E]]. apply Nat.eqb_eq in E. now subst.
  - intros H. exists p. split; [assumption | apply Nat.eqb_refl].
Qed.

Lemma reset_heap_In (l : list ref) (h : heap) (p : ref) :
  In p l -> reset_heap l h p = reset_state (h p).
Proof.
  intros H. unfold reset_heap.
  apply existsb_eqb_In in H. now rewrite H.
Qed.

Lemma reset_heap_not_In (l : list ref) (h : heap) (p : ref) :
  ~ In p l -> reset_heap l h p = h p.
Proof.
  intros H. unfold reset_heap.
  destruct (existsb (Nat.eqb p) l) eqn:E; [|reflexivity].
  apply existsb_eqb_In in E. contradiction.
Qed.

(** Resetting after a run brings a freshly built machine back to the heap
    it started from. *)
Lemma reset_after_run (m : Machine) (h h' : heap) :
  (forall p, In p (rotors m) -> reset_state (h p) = h p) ->
  turned m h h' ->
  reset_heap (rotors m) h' = h.
Proof.
  intros Hfresh [Hw Hf]. apply functional_extensionality. intros p.
  destruct (in_dec Nat.eq_dec p (rotors m)) as [Hp | Hp].
  - rewrite (reset_heap_In _ _ _ Hp).
    rewrite (same_wiring_reset_state _ _ (Hw p)). now apply Hfresh.
  - rewrite (reset_heap_not_In _ _ _ Hp). now apply Hf.
Qed.

(** ** The reflector *)

Lemma combine_keys_In {A B} (a : list A) (s : list B) (x : A) :
  In x (map fst (combine a s)) -> In x a.
Proof.
  intros H. apply in_map_iff in H. destruct H as [[k v] [<- H]].
  eapply in_combine_l; eassumption.
Qed.

Lemma combine_keys_NoDup {A B} (a : list A) (s : list B) :
  NoDup a -> NoDup (map fst (combine a s)).
Proof.
  intros Hnd. revert s. induction Hnd as [|k a Hk Hnd IH]; intros [|v s];
    simpl; try constructor.
  - intros H. apply Hk. eapply combine_keys_In; eassumption.
  - apply IH.
Qed.

Lemma dict_find_combine (a s : str) (x : ascii) :
  dict_find (combine a s) x =
  match find a x with Some i => nth_error s i | None => None end.
Proof.
  revert s. induction a as [|k a IH]; intros [|v s]; simpl; try reflexivity.
  - destruct (Ascii.eqb k x); [reflexivity|].
    destruct (find a x) as [i|]; simpl; [|reflexivity]. now destruct i.
  - destruct (Ascii.eqb k x); [reflexivity|].
    rewrite IH. destruct (find a x); reflexivity.
Qed.

Lemma reflector_dict_find (s : str) (x : ascii) :
  dict_find (dict_of (zip ALPHABET s)) x = mapping_of s x.
Proof.
  unfold zip. rewrite dict_of_NoDup
    by (apply combine_keys_NoDup, ALPHABET_NoDup).
  apply dict_find_combine.
Qed.

Lemma reflector_dict_keys (s : str) :
  length s = 26%nat -> dict_keys (dict_of (zip ALPHABET s)) = ALPHABET.
Proof.
  intros Hlen. unfold zip. rewrite dict_of_NoDup
    by (apply combine_keys_NoDup, ALPHABET_NoDup).
  apply map_fst_combine. now rewrite Hlen.
Qed.

Lemma Reflector_check_Ok (d : dict) (keys : list ascii) :
  Reflector_check d keys = Ok tt ->
  forall x, In x keys ->
    exists y, dict_find d x = Some y /\ dict_find d y = Some x.
Proof.
  induction keys as [|k keys IH]; intros Hrun x Hx; [contradiction|].
  cbn [Reflector_check] in Hrun. unfold rbind, dict_getitem in Hrun.
  destruct (dict_find d k) as [y|] eqn:Hy; [|discriminate].
  destruct (dict_find d y) as [z|] eqn:Hz; [|discriminate].
  destruct (Ascii.eqb k z) eqn:E; [|discriminate].
  apply Ascii.eqb_eq in E. subst z. cbn [negb] in Hrun.
  destruct Hx as [<- | Hx]; [now exists y | now apply IH].
Qed.

(** When every lookup of the loop succeeds, the loop either accepts an
    involution or raises at a pair that is not symmetric. *)
Lemma Reflector_check_cases (d : dict) (keys : list ascii) :
  (forall x, In x keys ->
     exists y z, dict_find d x = Some y /\ dict_find d y = Some z) ->
  (Reflector_check d keys = Ok tt /\
   forall x, In x keys ->
     exists y, dict_find d x = Some y /\ dict_find d y = Some x) \/
  (exists x y, Reflector_check d keys = Raise (ValueError (invalid_mapping x y))
     /\ In x keys /\ dict_find d x = Some y /\ dict_find d y <> Some x).
Proof.
  induction keys as [|k keys IH]; intros Htot.
  - left. split; [reflexivity | contradiction].
  - destruct (Htot k (or_introl eq_refl)) as [y [z [Hy Hz]]].
    cbn [Reflector_check]. unfold rbind, dict_getitem. rewrite Hy, Hz.
    destruct (Ascii.eqb k z) eqn:E; cbn [negb].
    + apply Ascii.eqb_eq in E. subst z.
      destruct IH as [[Hrun Hinv] | [x' [y' [Hrun [Hin [H1 H2]]]]]].
      * intros x Hx. apply Htot. now right.
      * left. split; [exact Hrun|].
        intros x [<- | Hx]; [now exists y | now apply Hinv].
      * right. exists x', y'. repeat split; trivial. now right.
    + right. exists k, y. repeat split; trivial; [now left|].
      rewrite Hz. intros [= ->]. rewrite Ascii.eqb_refl in E. discriminate.
Qed.

Lemma Reflector_init_Ok (s : str) (R : Reflector) :
  Reflector_init s = Ok R ->
  R = mkReflector (dict_of (zip ALPHABET s)) /\
  Reflector_check (mappings R) (dict_keys (mappings R)) = Ok tt.
Proof.
  unfold Reflector_init, rbind.
  destruct (Reflector_check _ _) as [[]|e] eqn:E; [|discriminate].
  intros [= <-]. now split.
Qed.

(** A reflector that was built from 26 characters is a valid involution. *)
Lemma Reflector_init_wf (s : str) (R : Reflector) :
  length s = 26%nat -> Reflector_init s = Ok R -> reflector_wf R.
Proof.
  intros Hlen Hinit x Hx.
  destruct (Reflector_init_Ok s R Hinit) as [-> Hcheck].
  cbn [mappings] in Hcheck. rewrite (reflector_dict_keys s Hlen) in Hcheck.
  destruct (Reflector_check_Ok _ _ Hcheck x Hx) as [y [Hxy Hyx]].
  exists y. unfold Reflector_getitem, dict_getitem. cbn [mappings].
  rewrite Hxy, Hyx. split; [|now split].
  rewrite <- (reflector_dict_keys s Hlen).
  apply dict_find_In in Hyx. unfold dict_keys.
  change y with (fst (y, x)). now apply in_map.
Qed.

(** ** The boolean checks *)

Lemma is_permutation_spec (w : str) :
  is_permutation w = true <-> Permutation w ALPHABET.
Proof.
  unfold is_permutation. rewrite andb_true_iff, Nat.eqb_eq, forallb_forall.
  split.
  - intros [Hlen Hall]. apply Permutation_sym.
    apply NoDup_Permutation_bis.
    + exact ALPHABET_NoDup.
    + rewrite Hlen. reflexivity.
    + intros x Hx. apply contains_In. now apply Hall.
  - intros H. split.
    + now rewrite (Permutation_length H).
    + intros x Hx. apply contains_In.
      now apply (Permutation_in _ (Permutation_sym H)).
Qed.

Lemma is_alphabetic_spec (text : str) :
  is_alphabetic text = true <-> Forall (fun x => In x ALPHABET) text.
Proof.
  unfold is_alphabetic. rewrite forallb_forall, Forall_forall.
  split; intros H x Hx; apply contains_In; now apply H.
Qed.

Lemma upper_alphabetic (text : str) :
  is_alphabetic text = true -> map upper text = text.
Proof.
  rewrite is_alphabetic_spec. induction 1 as [|x text Hx _ IH]; simpl.
  - reflexivity.
  - now rewrite (upper_alphabet x Hx), IH.
Qed.

Lemma freshly_built_wf (m : Machine) (h : heap) :
  freshly_built m h -> forall p, In p (rotors m) -> rotor_wf (h p).
Proof.
  intros H p Hp. destruct (H p Hp) as [w [o [Hw Hc]]].
  apply is_permutation_spec in Hw. eapply constructed_wf; eassumption.
Qed.

Lemma freshly_built_reset (m : Machine) (h : heap) :
  freshly_built m h -> forall p, In p (rotors m) -> reset_state (h p) = h p.
Proof.
  intros H p Hp. destruct (H p Hp) as [w [o [_ Hc]]].
  eapply constructed_reset_state; eassumption.
Qed.

Lemma Reflector_init_B : Reflector_init wiring_B = Ok reflector_B.
Proof. reflexivity. Qed.

(* ================================================================== *)
(** * Part III: the claims of the specification *)
(* ================================================================== *)

(** ** C1: deciphering the cipher text *)

(** C1, as the specification states it, fails on a machine without
    rotors: a [Machine] may be built from an empty rotor list, its
    reflector being a valid involution, and enciphering the letter A then
    raises [IndexError] at [self.rotors[0]]; there is no cipher text to
    decipher. *)
Lemma C1_counterexample_no_rotors :
  Reflector_init wiring_B = Ok (reflector machine0) /\
  length wiring_B = 26%nat /\
  freshly_built machine0 blank_heap /\
  is_alphabetic (lit "A") = true /\
  fst (Machine_encipher machine0 (lit "A") blank_heap) = Raise IndexError /\
  ~ (exists cipher h1 h2,
       Machine_encipher machine0 (lit "A") blank_heap = (Ok cipher, h1) /\
       Machine_decipher machine0 cipher h1 = (Ok (map upper (lit "A")), h2)).
Proof.
  split; [reflexivity|]. split; [reflexivity|].
  split; [intros p []|]. split; [reflexivity|]. split; [reflexivity|].
  intros [cipher [h1 [h2 [H _]]]].
  apply (f_equal fst) in H. discriminate H.
Qed.

(** C1 (amended): for every machine with at least one rotor, its rotors
    fresh from the constructor and built from permutations of the alphabet,
    its reflector built from 26 characters without error, and every text
    [T] of letters A-Z: enciphering [T] succeeds, and deciphering the
    result yields [T] uppercased.  [decipher] is [reset] followed by
    [encipher], and [reset] puts every rotor of the machine into its reset
    state. *)
Theorem C1_decipher_encipher
  (m : Machine) (wiring : str) (h : heap) (text : str) :
  rotors m <> [] ->
  freshly_built m h ->
  length wiring = 26%nat ->
  Reflector_init wiring = Ok (reflector m) ->
  is_alphabetic text = true ->
  (exists cipher h1 h2,
     Machine_encipher m text h = (Ok cipher, h1) /\
     Machine_decipher m cipher h1 = (Ok (map upper text), h2)) /\
  (forall c h', Machine_decipher m c h' =
                Machine_encipher m c (snd (Machine_reset m h'))) /\
  (forall h' p, In p (rotors m) ->
                snd (Machine_reset m h') p = reset_state (h' p)).
Proof.
  intros Hne Hfresh Hlen Hinit Htext.
  assert (HR := Reflector_init_wf _ _ Hlen Hinit).
  split; [|split].
  - destruct (encipher_involution m text Hne HR
                (proj1 (is_alphabetic_spec text) Htext) h
                (freshly_built_wf m h Hfresh))
      as [cipher [h1 [_ [Hrun [Hback Hturned]]]]].
    exists cipher, h1, h1. split; [exact Hrun|].
    unfold Machine_decipher.
    rewrite (bind_ok _ _ _ _ _ (Machine_reset_run m h1)).
    rewrite (reset_after_run m h h1 (freshly_built_reset m h Hfresh) Hturned).
    now rewrite (upper_alphabetic text Htext).
  - intros c h'. unfold Machine_decipher.
    now rewrite (bind_ok _ _ _ _ _ (Machine_reset_run m h')),
      Machine_reset_run.
  - intros h' p Hp. rewrite Machine_reset_run. cbn [snd].
    now apply reset_heap_In.
Qed.

Lemma C1_decipher_encipher_witness :
  exists cipher h1 h2,
    Machine_encipher machine3 (lit "ENIGMA") heap3 = (Ok cipher, h1) /\
    Machine_decipher machine3 cipher h1 = (Ok (lit "ENIGMA"), h2).
Proof.
  refine (proj1 (C1_decipher_encipher machine3 wiring_B heap3 (lit "ENIGMA")
                   _ _ _ _ _)).
  - discriminate.
  - intros p [<- | [<- | [<- | []]]].
    + exists wiring_I, 0. split; [reflexivity|].
      exists 0%nat, blank_heap. reflexivity.
    + exists wiring_II, 0. split; [reflexivity|].
      exists 1%nat, blank_heap. reflexivity.
    + exists wiring_III, 0. split; [reflexivity|].
      exists 2%nat, blank_heap. reflexivity.
  - reflexivity.
  - reflexivity.
  - reflexivity.
Defined.

(** ** C3 and C2: the rotation counter and the turnover *)

Lemma constructed_rotations (w : str) (o : Z) (r : Rotor) :
  constructed w o r -> rotations r = 1.
Proof.
  intros H. apply constructed_eq in H. cbn in H. now subst r.
Qed.

Lemma encipher_character_rotations (m : Machine) (x : ascii) (h : heap) :
  (forall p, In p (rotors m) -> rotations (h p) = 1) ->
  let h' := snd (Machine_encipher_character m x h) in
  (forall p, In p (rotors m) -> rotations (h' p) = 1) /\
  (forall p, nth_error (rotors m) 0 <> Some p -> h' p = h p).
Proof.
  intros Hinv. destruct (contains ALPHABET (upper x)) eqn:Hx.
  - rewrite (encipher_character_letter m x h Hx).
    destruct (route_of _ _ _) as [ci|e]; [|now split].
    destruct (rotors m) as [|r0 rest] eqn:E; [now split|].
    rewrite stepping_spec_idle
      by (intros q Hq; apply Hinv; now right).
    cbn [snd]. split.
    + intros p Hp. unfold store. destruct (Nat.eqb p r0); [reflexivity|].
      now apply Hinv.
    + intros p Hp. apply store_neq. intros ->. now apply Hp.
  - rewrite (encipher_character_other m x h Hx). now split.
Qed.

Lemma encipher_rotations (m : Machine) (text : str) (h : heap) :
  (forall p, In p (rotors m) -> rotations (h p) = 1) ->
  let h' := snd (Machine_encipher m text h) in
  (forall p, In p (rotors m) -> rotations (h' p) = 1) /\
  (forall p, nth_error (rotors m) 0 <> Some p -> h' p = h p).
Proof.
  revert h. induction text as [|x text IH]; intros h Hinv; [now split|].
  rewrite Machine_encipher_cons. unfold bind.
  destruct (encipher_character_rotations m x h Hinv) as [H1 H2].
  destruct (Machine_encipher_character m x h) as [[c|e] h1];
    cbn [snd] in H1, H2; [|now split].
  destruct (IH h1 H1) as [K1 K2].
  destruct (Machine_encipher m text h1) as [[cs|e] h2];
    cbn [snd] in K1, K2 |- *;
    (split; [exact K1 | intros p Hp; now rewrite K2, H2]).
Qed.

(** C3, as the specification states it, fails on a machine that holds one
    rotor object twice: [Machine([r, r], reflector)] is accepted, its rotor
    at index 1 is its rotor at index 0, and it is turned by the first
    letter, although its counter is 1 before and after. *)
Lemma C3_counterexample_shared_rotor :
  Reflector_init wiring_B = Ok (reflector machine_shared) /\
  freshly_built machine_shared heap3 /\
  (forall p, In p (rotors machine_shared) -> rotations (heap3 p) = 1) /\
  nth_error (rotors machine_shared) 1 = Some 0%nat /\
  (exists cipher,
     fst (Machine_encipher machine_shared (lit "A") heap3) = Ok cipher) /\
  rotations (snd (Machine_encipher machine_shared (lit "A") heap3) 0%nat)
    = 1 /\
  alphabet (snd (Machine_encipher machine_shared (lit "A") heap3) 0%nat)
    = alphabet (rotated 1 (heap3 0%nat)) /\
  alphabet (snd (Machine_encipher machine_shared (lit "A") heap3) 0%nat)
    <> alphabet (heap3 0%nat).
Proof.
  split; [reflexivity|]. split.
  { intros p [<- | [<- | []]];
      (exists wiring_I, 0; split; [reflexivity|];
       exists 0%nat, blank_heap; reflexivity). }
  split.
  { intros p [<- | [<- | []]]; reflexivity. }
  split; [reflexivity|].
  split; [eexists; reflexivity|].
  split; [reflexivity|]. split; [reflexivity|].
  vm_compute. discriminate.
Qed.

(** C3 (amended): the rotation counter of every rotor of a machine is 1
    after construction and after [reset], and stays 1 through every
    character that [encipher] processes, because [rotate] stores its
    argument and the stepping only calls [rotate(1)]; the turnover test on
    a counter that is 1 never succeeds, so no object other than rotor 0 is
    changed by a run: in a machine whose rotors are distinct objects every
    rotor at an index i >= 1 keeps all its attributes, its rotated alphabet
    among them, for the whole run. *)
Theorem C3_rotations_stay_one (m : Machine) :
  (forall w o r, constructed w o r -> rotations r = 1) /\
  (forall h p, In p (rotors m) ->
     rotations (snd (Machine_reset m h) p) = 1) /\
  (forall i, 1 <= i -> (1 mod (26 * i) =? 0) = false) /\
  (forall h x, (forall p, In p (rotors m) -> rotations (h p) = 1) ->
     forall p, In p (rotors m) ->
       rotations (snd (Machine_encipher_character m x h) p) = 1) /\
  (forall h text, (forall p, In p (rotors m) -> rotations (h p) = 1) ->
     forall p, In p (rotors m) ->
       rotations (snd (Machine_encipher m text h) p) = 1) /\
  (forall h text, (forall p, In p (rotors m) -> rotations (h p) = 1) ->
     forall p, nth_error (rotors m) 0 <> Some p ->
       snd (Machine_encipher m text h) p = h p) /\
  (NoDup (rotors m) ->
   forall h text, (forall p, In p (rotors m) -> rotations (h p) = 1) ->
     forall i p, (1 <= i)%nat -> nth_error (rotors m) i = Some p ->
       snd (Machine_encipher m text h) p = h p).
Proof.
  split; [apply constructed_rotations|].
  split.
  { intros h p Hp. rewrite Machine_reset_run. cbn [snd].
    now rewrite (reset_heap_In _ _ _ Hp). }
  split.
  { intros i Hi. rewrite Z.mod_small by lia. reflexivity. }
  split.
  { intros h x Hinv. apply (encipher_character_rotations m x h Hinv). }
  split.
  { intros h text Hinv. apply (encipher_rotations m text h Hinv). }
  split.
  { intros h text Hinv. apply (encipher_rotations m text h Hinv). }
  intros Hnd h text Hinv i p Hi Hp.
  apply (encipher_rotations m text h Hinv).
  intros H0.
  assert (Hlt : (i < length (rotors m))%nat)
    by (apply nth_error_Some; congruence).
  assert (i = 0)%nat; [|lia].
  apply (proj1 (NoDup_nth_error (rotors m)) Hnd i 0%nat Hlt). congruence.
Qed.

Lemma C3_rotations_stay_one_witness :
  rotations (snd (Machine_encipher machine3 (lit "HELLO WORLD") heap3) 0%nat)
    = 1 /\
  snd (Machine_encipher machine3 (lit "HELLO WORLD") heap3) 1%nat
    = heap3 1%nat.
Proof.
  assert (Hinv : forall p, In p (rotors machine3) -> rotations (heap3 p) = 1).
  { intros p [<- | [<- | [<- | []]]]; reflexivity. }
  assert (Hnd : NoDup (rotors machine3)).
  { repeat constructor; simpl; intuition discriminate. }
  destruct (C3_rotations_stay_one machine3)
    as (_ & _ & _ & _ & H5 & _ & H6).
  split.
  - apply (H5 heap3 (lit "HELLO WORLD") Hinv). simpl. now left.
  - apply (H6 Hnd heap3 (lit "HELLO WORLD") Hinv 1%nat);
      [apply le_n | reflexivity].
Defined.

(** C2, evaluated on the three-rotor machine with all offsets 0: after 26
    letters A the first rotor is back where it started, and the second
    rotor has not moved at all; it still shows the unrotated alphabet and
    not the alphabet rotated by one position. *)
Theorem C2_second_rotor_never_steps :
  let run := Machine_encipher machine3 (repeat "A"%char 26) heap3 in
  (exists cipher, fst run = Ok cipher) /\
  alphabet (heap3 0%nat) = ALPHABET /\
  alphabet (heap3 1%nat) = ALPHABET /\
  alphabet (snd run 0%nat) = ALPHABET /\
  alphabet (snd run 1%nat) = ALPHABET /\
  alphabet (snd run 1%nat) <> alphabet (rotated 1 (heap3 1%nat)) /\
  rotations (snd run 0%nat) = 1 /\
  rotations (snd run 1%nat) = 1.
Proof.
  vm_compute. split; [eexists; reflexivity|].
  repeat split; discriminate.
Qed.

(** ** C4: the stepping *)

Lemma turnover_spec_pointwise (rest : list ref) :
  forall (i : Z) (prev : ref) (h h' : heap),
  NoDup (prev :: rest) ->
  turnover_spec i prev rest h = (Ok tt, h') ->
  forall k p q,
    nth_error (prev :: rest) k = Some q -> nth_error rest k = Some p ->
    h' p = if rotations (h' q) mod (26 * (i + Z.of_nat k)) =? 0
           then rotated 1 (h p) else h p.
Proof.
  induction rest as [|r rest IH]; intros i prev h h' Hnd Hrun k p q Hq Hp.
  - destruct k; discriminate.
  - inversion Hnd as [|? ? Hprev Hnd']; subst.
    inversion Hnd' as [|? ? Hr _]; subst.
    cbn [turnover_spec] in Hrun.
    rewrite (bind_ok _ _ _ _ _ (getattr_run prev rotations h)) in Hrun.
    set (h1 := if rotations (h prev) mod (26 * i) =? 0
               then store h r (rotated 1 (h r)) else h).
    assert (Hrun1 : turnover_spec (i + 1) r rest h1 = (Ok tt, h')).
    { unfold h1. destruct (rotations (h prev) mod (26 * i) =? 0).
      - now rewrite (bind_ok _ _ _ _ _ (Rotor_rotate_run r 1 h)) in Hrun.
      - now rewrite (bind_ok _ _ _ _ _ (ret_run tt h)) in Hrun. }
    assert (Hframe : forall p', ~ In p' rest -> h' p' = h1 p').
    { destruct (turnover_spec_turned rest (i + 1) r h1) as [h'' [E [_ F]]].
      rewrite Hrun1 in E. now injection E as <-. }
    assert (Hother : forall p', p' <> r -> h1 p' = h p').
    { intros p' Hp'. unfold h1.
      destruct (rotations (h prev) mod (26 * i) =? 0);
        [now apply store_neq | reflexivity]. }
    destruct k as [|k].
    + injection Hq as <-. injection Hp as <-.
      rewrite (Hframe r Hr).
      rewrite (Hframe prev) by (intros H; apply Hprev; now right).
      rewrite (Hother prev) by (intros ->; apply Hprev; now left).
      rewrite Z.add_0_r. unfold h1.
      destruct (rotations (h prev) mod (26 * i) =? 0);
        [apply store_eq | reflexivity].
    + cbn [nth_error] in Hq, Hp.
      rewrite (IH (i + 1) r h1 h' Hnd' Hrun1 k p q Hq Hp).
      replace (i + 1 + Z.of_nat k) with (i + Z.of_nat (S k)) by lia.
      rewrite (Hother p)
        by (intros ->; apply Hr; eapply nth_error_In; eassumption).
      reflexivity.
Qed.

Lemma encipher_character_stepping (m : Machine) (x c : ascii) (h h' : heap) :
  contains ALPHABET (upper x) = true ->
  Machine_encipher_character m x h = (Ok c, h') ->
  stepping_spec (rotors m) h = (Ok tt, h').
Proof.
  intros Hx Hrun. rewrite (encipher_character_letter m x h Hx) in Hrun.
  destruct (route_of _ _ _) as [ci|e]; [|discriminate].
  destruct (stepping_spec (rotors m) h) as [[[]|e] h1]; [|discriminate].
  now injection Hrun as _ <-.
Qed.

Lemma encipher_character_route (m : Machine) (x c : ascii) (h h' : heap) :
  contains ALPHABET (upper x) = true ->
  Machine_encipher_character m x h = (Ok c, h') ->
  exists contact_index,
    Machine_route m (upper x) h = (Ok contact_index, h) /\
    getitem ALPHABET contact_index = Ok c.
Proof.
  intros Hx Hrun. rewrite (encipher_character_letter m x h Hx) in Hrun.
  rewrite Machine_route_run.
  destruct (route_of _ _ _) as [ci|e]; [|discriminate].
  destruct (stepping_spec (rotors m) h) as [[[]|e] h1]; [|discriminate].
  injection Hrun as Hc _. now exists ci.
Qed.

(** C4: a call of [encipher_character] on a letter that returns has first
    routed the uppercased letter through the rotors, the reflector and the
    rotors in reverse, all of them in the state from before the call and
    none of them changed by it, and returns the letter at the contact the
    route ends on.  After that it has done to the rotors exactly what the
    stepping of the specification does: [rotate(1)] on rotor 0, then for
    i = 1, 2, ... in this order [rotate(1)] on rotor i when the rotation
    value stored in rotor i-1 at that moment is a multiple of 26*i.  When
    the rotors are distinct objects this determines every object of the
    heap: rotor 0 is rotated by one, rotor i+1 is rotated by one exactly
    when the value stored in rotor i is a multiple of 26*(i+1), and nothing
    else has changed. *)
Theorem C4_stepping (m : Machine) (x c : ascii) (h h' : heap) :
  contains ALPHABET (upper x) = true ->
  Machine_encipher_character m x h = (Ok c, h') ->
  (exists contact_index,
     Machine_route m (upper x) h = (Ok contact_index, h) /\
     getitem ALPHABET contact_index = Ok c) /\
  stepping_spec (rotors m) h = (Ok tt, h') /\
  (NoDup (rotors m) ->
   (forall r0, nth_error (rotors m) 0 = Some r0 ->
      h' r0 = rotated 1 (h r0)) /\
   (forall i p q,
      nth_error (rotors m) i = Some q ->
      nth_error (rotors m) (S i) = Some p ->
      h' p = if rotations (h' q) mod (26 * Z.of_nat (S i)) =? 0
             then rotated 1 (h p) else h p) /\
   (forall p, ~ In p (rotors m) -> h' p = h p)).
Proof.
  intros Hx Hrun.
  split; [exact (encipher_character_route m x c h h' Hx Hrun)|].
  assert (Hstep := encipher_character_stepping m x c h h' Hx Hrun).
  split; [exact Hstep|]. intros Hnd.
  destruct (rotors m) as [|r0 rest]; [discriminate|].
  cbn [stepping_spec] in Hstep.
  rewrite (bind_ok _ _ _ _ _ (Rotor_rotate_run r0 1 h)) in Hstep.
  set (h0 := store h r0 (rotated 1 (h r0))) in *.
  assert (Hframe : forall p, ~ In p rest -> h' p = h0 p).
  { destruct (turnover_spec_turned rest 1 r0 h0) as [h'' [E [_ F]]].
    rewrite Hstep in E. now injection E as <-. }
  inversion Hnd as [|? ? Hr0 Hnd']; subst.
  split; [|split].
  - intros r [= <-]. rewrite (Hframe r0 Hr0). apply store_eq.
  - intros i p q Hq Hp. cbn [nth_error] in Hp.
    rewrite (turnover_spec_pointwise rest 1 r0 h0 h' Hnd Hstep i p q Hq Hp).
    replace (1 + Z.of_nat i) with (Z.of_nat (S i)) by lia.
    assert (Hpr : p <> r0)
      by (intros ->; apply Hr0; eapply nth_error_In; eassumption).
    unfold h0. now rewrite (store_neq h r0 p _ Hpr).
  - intros p Hp. simpl in Hp. rewrite Hframe by tauto.
    apply store_neq. intros ->. tauto.
Qed.

Lemma run_pairing {A} (run : result A * heap) (a : A) :
  fst run = Ok a -> run = (Ok a, snd run).
Proof. destruct run as [r h]. cbn. now intros ->. Qed.

Lemma C4_stepping_witness :
  let h' := snd (Machine_encipher_character machine3 "a" heap3) in
  (exists contact_index,
     Machine_route machine3 (upper "a") heap3 = (Ok contact_index, heap3) /\
     getitem ALPHABET contact_index = Ok "N"%char) /\
  stepping_spec (rotors machine3) heap3 = (Ok tt, h') /\
  h' 0%nat = rotated 1 (heap3 0%nat) /\
  h' 1%nat = heap3 1%nat.
Proof.
  assert (Hnd : NoDup (rotors machine3)).
  { repeat constructor; simpl; intuition discriminate. }
  destruct (C4_stepping machine3 "a" "N" heap3
              (snd (Machine_encipher_character machine3 "a" heap3))
              eq_refl
              (run_pairing (Machine_encipher_character machine3 "a" heap3)
                 "N"%char eq_refl)) as [H0 [H1 H2]].
  destruct (H2 Hnd) as [H3 [H4 _]].
  split; [exact H0|]. split; [exact H1|]. split; [now apply H3|].
  rewrite (H4 0%nat 1%nat 0%nat eq_refl eq_refl). reflexivity.
Defined.

(** ** C5: the reflector is validated when it is built *)

Lemma mapping_of_total (s : str) (x : ascii) :
  length s = 26%nat -> is_alphabetic s = true -> In x ALPHABET ->
  exists y, In y ALPHABET /\ mapping_of s x = Some y.
Proof.
  intros Hlen Hs Hx. unfold mapping_of.
  destruct (find_In _ _ Hx) as [i Hi]. rewrite Hi.
  apply find_lt in Hi. rewrite ALPHABET_length, <- Hlen in Hi.
  destruct (nth_error s i) as [y|] eqn:Hy;
    [|apply nth_error_None in Hy; lia].
  exists y. split; [|reflexivity].
  apply is_alphabetic_spec in Hs. rewrite Forall_forall in Hs.
  apply Hs. eapply nth_error_In; eassumption.
Qed.

Lemma Reflector_init_cases (s : str) :
  length s = 26%nat -> is_alphabetic s = true ->
  (Reflector_init s = Ok (mkReflector (dict_of (zip ALPHABET s))) /\
   forall x, In x ALPHABET -> mapping_twice s x = Some x) \/
  (exists x y,
     Reflector_init s = Raise (ValueError (invalid_mapping x y)) /\
     In x ALPHABET /\ mapping_of s x = Some y /\ mapping_of s y <> Some x).
Proof.
  intros Hlen Hs. unfold Reflector_init.
  rewrite (reflector_dict_keys s Hlen).
  destruct (Reflector_check_cases (dict_of (zip ALPHABET s)) ALPHABET)
    as [[Hrun Hinv] | [x [y [Hrun [Hx [Hxy Hyx]]]]]].
  - intros x Hx. rewrite !reflector_dict_find.
    destruct (mapping_of_total s x Hlen Hs Hx) as [y [Hy Hxy]].
    destruct (mapping_of_total s y Hlen Hs Hy) as [z [_ Hyz]].
    exists y, z. rewrite reflector_dict_find. now split.
  - left. rewrite Hrun. split; [reflexivity|].
    intros x Hx. destruct (Hinv x Hx) as [y [Hxy Hyx]].
    rewrite reflector_dict_find in Hxy, Hyx.
    unfold mapping_twice. now rewrite Hxy.
  - right. exists x, y. rewrite Hrun.
    rewrite !reflector_dict_find in *. now repeat split.
Qed.

(** C5: for a mapping string of 26 characters drawn from A-Z,
    [Reflector(mappings)] raises the [ValueError] that names a pair x, y
    with mapping(x) = y and mapping(y) != x exactly when the mapping is not
    an involution, and returns a reflector exactly when it is one; the
    error comes from the constructor itself.  Every reflector so
    constructed satisfies reflect(reflect(x)) = x for all 26 letters. *)
Theorem C5_reflector_validated (s : str) :
  length s = 26%nat -> is_alphabetic s = true ->
  ((exists x y,
      Reflector_init s = Raise (ValueError (invalid_mapping x y)) /\
      In x ALPHABET /\ mapping_of s x = Some y /\ mapping_of s y <> Some x)
   <-> (exists x, In x ALPHABET /\ mapping_twice s x <> Some x)) /\
  ((exists R, Reflector_init s = Ok R)
   <-> (forall x, In x ALPHABET -> mapping_twice s x = Some x)) /\
  (forall R, Reflector_init s = Ok R ->
     forall x, In x ALPHABET ->
       exists y, In y ALPHABET /\
         Reflector_getitem R x = Ok y /\ Reflector_getitem R y = Ok x).
Proof.
  intros Hlen Hs.
  split; [|split].
  - destruct (Reflector_init_cases s Hlen Hs)
      as [[Hrun Hinv] | [x [y [Hrun [Hx [Hxy Hyx]]]]]].
    + split.
      * intros [x [y [H _]]]. rewrite Hrun in H. discriminate.
      * intros [x [Hx H]]. elim H. now apply Hinv.
    + split.
      * intros _. exists x. split; [assumption|].
        unfold mapping_twice. now rewrite Hxy.
      * intros _. exists x, y. now repeat split.
  - destruct (Reflector_init_cases s Hlen Hs)
      as [[Hrun Hinv] | [x [y [Hrun [Hx [Hxy Hyx]]]]]].
    + split; [intros _; exact Hinv | intros _; eexists; exact Hrun].
    + split.
      * intros [R H]. rewrite Hrun in H. discriminate.
      * intros H. specialize (H x Hx). unfold mapping_twice in H.
        rewrite Hxy in H. contradiction.
  - intros R HR. exact (Reflector_init_wf s R Hlen HR).
Qed.

Lemma C5_reflector_validated_witness :
  exists y, In y ALPHABET /\
    Reflector_getitem reflector_B "A" = Ok y /\
    Reflector_getitem reflector_B y = Ok "A"%char.
Proof.
  refine (proj2 (proj2 (C5_reflector_validated wiring_B _ _))
            reflector_B _ "A"%char _).
  - reflexivity.
  - reflexivity.
  - reflexivity.
  - simpl. now left.
Defined.

(** ** C6: characters that are not letters *)





(** ** C7: the wiring of a rotor is not validated *)

Lemma forallb_false_witness {A} (f : A -> bool) (l : list A) :
  forallb f l = false -> exists x, In x l /\ f x = false.
Proof.
  induction l as [|a l IH]; simpl; [discriminate|].
  destruct (f a) eqn:E; simpl.
  - intros H. destruct (IH H) as [x [Hx Hf]]. exists x. split; tauto.
  - intros _. exists a. split; [now left | assumption].
Qed.

(** C7, as the specification states it, fails: the constructor accepts the
    26-character wiring that repeats the letter A, which is not a
    permutation of the alphabet. *)
Lemma C7_counterexample_repeated_letter :
  length (repeat "A"%char 26) = 26%nat /\
  ~ Permutation (repeat "A"%char 26) ALPHABET /\
  fst (Rotor_init 0%nat (repeat "A"%char 26) 0 blank_heap) = Ok tt.
Proof.
  split; [reflexivity|]. split; [|reflexivity].
  intros H. apply is_permutation_spec in H. discriminate H.
Qed.

(** C7 (amended): the constructor of a rotor checks nothing and succeeds
    for every wiring string, permutation or not.  When a wiring of 26
    characters is not a permutation of the alphabet, some letter has no
    entry in the reverse dictionary of the rotor built from it: [decipher]
    of that letter raises [KeyError], and so does [translate] in the
    reverse direction at the contact where the letter sits. *)
Theorem C7_rotor_wiring_unchecked
  (self : ref) (w : str) (o : Z) (h : heap) :
  let h' := snd (Rotor_init self w o h) in
  fst (Rotor_init self w o h) = Ok tt /\
  (length w = 26%nat -> is_permutation w = false ->
   exists x i, In x ALPHABET /\ 0 <= i < 26 /\
     Rotor_decipher self x h' = (Raise (KeyError x), h') /\
     Rotor_translate self i false h' = (Raise (KeyError x), h')).
Proof.
  rewrite Rotor_init_run. cbn [fst snd]. split; [reflexivity|].
  intros Hlen Hperm. unfold is_permutation in Hperm.
  rewrite Hlen, Nat.eqb_refl in Hperm. cbn [andb] in Hperm.
  destruct (forallb_false_witness _ _ Hperm) as [x [Hx Hw]].
  apply contains_false in Hw.
  set (a := slice_from ALPHABET o ++ slice_to ALPHABET o).
  assert (Hmiss : dict_find (dict_of (zip w a)) x = None).
  { apply dict_of_missing. intros H. apply Hw.
    eapply combine_keys_In; eassumption. }
  assert (Ha : In x a)
    by (apply (Permutation_in _
                 (Permutation_sym (slice_rotation_Permutation ALPHABET o)));
        exact Hx).
  destruct (find_In a x Ha) as [i Hi].
  assert (Hlt : (i < 26)%nat).
  { apply find_lt in Hi. unfold a in Hi.
    now rewrite (Permutation_length (slice_rotation_Permutation ALPHABET o))
      in Hi. }
  exists x, (Z.of_nat i). split; [assumption|]. split; [lia|]. split.
  - unfold Rotor_decipher.
    rewrite (bind_ok _ _ _ _ _ (getattr_run _ _ _)).
    rewrite store_eq. cbn [reverse_mappings].
    unfold lift, dict_getitem. now rewrite Hmiss.
  - rewrite Rotor_translate_run, store_eq.
    unfold translate_of, translate_with. cbn [alphabet reverse_mappings].
    fold a. rewrite getitem_nat, (find_nth_error _ _ _ Hi).
    unfold rbind, dict_getitem. now rewrite Hmiss.
Qed.

Lemma C7_rotor_wiring_unchecked_witness :
  fst (Rotor_init 0%nat (repeat "A"%char 26) 0 blank_heap) = Ok tt /\
  exists x i, In x ALPHABET /\ 0 <= i < 26 /\
    Rotor_decipher 0%nat x
      (snd (Rotor_init 0%nat (repeat "A"%char 26) 0 blank_heap)) =
    (Raise (KeyError x),
     snd (Rotor_init 0%nat (repeat "A"%char 26) 0 blank_heap)) /\
    Rotor_translate 0%nat i false
      (snd (Rotor_init 0%nat (repeat "A"%char 26) 0 blank_heap)) =
    (Raise (KeyError x),
     snd (Rotor_init 0%nat (repeat "A"%char 26) 0 blank_heap)).
Proof.
  split.
  - exact (proj1 (C7_rotor_wiring_unchecked 0%nat (repeat "A"%char 26) 0
                    blank_heap)).
  - exact (proj2 (C7_rotor_wiring_unchecked 0%nat (repeat "A"%char 26) 0
                    blank_heap) eq_refl eq_refl).
Defined.

(** ** C8: the path through a rotor is reversible *)

(** C8: for a rotor built from a permutation of the alphabet, in any state
    that [rotate] and [reset] can bring it to, and for every contact index
    0..25: [translate] forward and then in reverse gives the index back,
    and so does [translate] in reverse and then forward; both results are
    again indices 0..25.  [translate] leaves the heap as it was, whatever
    its arguments. *)
Theorem C8_translate_reversible
  (w : str) (o : Z) (self : ref) (h : heap) (i : Z) :
  is_permutation w = true ->
  reachable w o (h self) ->
  0 <= i < 26 ->
  (exists j, 0 <= j < 26 /\
     Rotor_translate self i true h = (Ok j, h) /\
     Rotor_translate self j false h = (Ok i, h)) /\
  (exists k, 0 <= k < 26 /\
     Rotor_translate self i false h = (Ok k, h) /\
     Rotor_translate self k true h = (Ok i, h)) /\
  (forall contact_index right,
     snd (Rotor_translate self contact_index right h) = h).
Proof.
  intros Hw Hreach Hi.
  apply is_permutation_spec in Hw.
  assert (Hwf := reachable_wf w o (h self) Hw Hreach).
  assert (Hn : (Z.to_nat i < 26)%nat) by lia.
  rewrite <- (Z2Nat.id i) by lia.
  split; [|split].
  - destruct (translate_forward_reverse (h self) (Z.to_nat i) Hwf Hn)
      as [j [Hj [H1 H2]]].
    exists (Z.of_nat j). split; [lia|].
    rewrite !Rotor_translate_run, H1, H2. now split.
  - destruct (translate_reverse_forward (h self) (Z.to_nat i) Hwf Hn)
      as [k [Hk [H1 H2]]].
    exists (Z.of_nat k). split; [lia|].
    rewrite !Rotor_translate_run, H1, H2. now split.
  - intros ci right. now rewrite Rotor_translate_run.
Qed.

Lemma C8_translate_reversible_witness :
  exists j, 0 <= j < 26 /\
    Rotor_translate 0%nat 11 true heap_turned = (Ok j, heap_turned) /\
    Rotor_translate 0%nat j false heap_turned = (Ok 11, heap_turned).
Proof.
  refine (proj1 (C8_translate_reversible wiring_I 3 0%nat heap_turned 11
                   eq_refl _ _)).
  - apply (reach_rotate wiring_I 3 0%nat
             (snd (Rotor_init 0%nat wiring_I 3 blank_heap)) 5).
    apply reach_init. exists 0%nat, blank_heap. reflexivity.
  - lia.
Defined.

(** ** C9 and C10: reset *)

Lemma rotation_is_cyclic_shift (o : Z) :
  -26 <= o <= 26 ->
  slice_from ALPHABET o ++ slice_to ALPHABET o = cyclic_shift ALPHABET o.
Proof.
  intros Ho.
  assert (H : In o (map (fun n => Z.of_nat n - 26) (seq 0 53))).
  { apply in_map_iff. exists (Z.to_nat (o + 26)).
    split; [lia | apply in_seq; lia]. }
  cbn in H.
  repeat (destruct H as [<- | H]; [reflexivity|]).
  contradiction.
Qed.

(** C9: whatever the attributes of a rotor are, [reset] returns normally,
    sets its rotated alphabet to the alphabet shifted cyclically by
    [initial_offset] (an offset of the range the slicing takes as a
    rotation, which includes the 0..25 of the data model) and its rotation
    counter to 1; the offset and the two dictionaries are kept, and no other
    object is touched.  The turnover test that follows a reset therefore
    reads the counter 1. *)
Theorem C9_rotor_reset (self : ref) (h : heap) :
  -26 <= initial_offset (h self) <= 26 ->
  exists h', Rotor_reset self h = (Ok tt, h') /\
    alphabet (h' self) = cyclic_shift ALPHABET (initial_offset (h self)) /\
    rotations (h' self) = 1 /\
    initial_offset (h' self) = initial_offset (h self) /\
    forward_mappings (h' self) = forward_mappings (h self) /\
    reverse_mappings (h' self) = reverse_mappings (h self) /\
    (forall p, p <> self -> h' p = h p).
Proof.
  intros Ho. rewrite Rotor_reset_run.
  eexists. split; [reflexivity|].
  rewrite store_eq, reset_state_eq. cbn.
  split; [now apply rotation_is_cyclic_shift|].
  repeat split. intros p Hp. now apply store_neq.
Qed.

Lemma C9_rotor_reset_witness :
  exists h', Rotor_reset 0%nat heap_turned = (Ok tt, h') /\
    alphabet (h' 0%nat) = lit "DEFGHIJKLMNOPQRSTUVWXYZABC" /\
    rotations (h' 0%nat) = 1.
Proof.
  destruct (C9_rotor_reset 0%nat heap_turned) as [h' (H1 & H2 & H3 & _)].
  - change (-26 <= 3 <= 26). lia.
  - exists h'. split; [exact H1|]. split; [exact H2 | exact H3].
Defined.

(** C10: [Machine.reset] returns normally from any heap, and a second call
    right after the first leaves the heap, hence the rotated alphabet and
    the rotation counter of every rotor, exactly as the first call left
    it. *)
Theorem C10_reset_idempotent (m : Machine) (h : heap) :
  let h1 := snd (Machine_reset m h) in
  let h2 := snd (Machine_reset m h1) in
  fst (Machine_reset m h) = Ok tt /\
  fst (Machine_reset m h1) = Ok tt /\
  h2 = h1 /\
  (forall p, In p (rotors m) ->
     alphabet (h2 p) = alphabet (h1 p) /\
     rotations (h2 p) = rotations (h1 p)).
Proof.
  cbv zeta. rewrite !Machine_reset_run. cbn [fst snd].
  assert (E : reset_heap (rotors m) (reset_heap (rotors m) h) =
              reset_heap (rotors m) h).
  { apply functional_extensionality. intros p. unfold reset_heap.
    destruct (existsb (Nat.eqb p) (rotors m)); reflexivity. }
  rewrite E. repeat split.
Qed.

(* ================================================================== *)
(** * Part IV: further properties of the code *)
(* ================================================================== *)

(** ** Rotations of a sequence *)

Lemma firstn_add_split {A} (a b : nat) (s : list A) :
  (a <= length s)%nat ->
  firstn (a + b) s = firstn a s ++ firstn b (skipn a s).
Proof.
  intros Ha. rewrite <- (firstn_skipn a s) at 1.
  rewrite firstn_app, length_firstn, Nat.min_l by assumption.
  rewrite firstn_all2 by (rewrite length_firstn; lia).
  now replace (a + b - a)%nat with b by lia.
Qed.

Lemma rotation_add {A} (a b : nat) (s : list A) :
  (a + b <= length s)%nat ->
  skipn b (skipn a s ++ firstn a s) ++ firstn b (skipn a s ++ firstn a s) =
  skipn (a + b) s ++ firstn (a + b) s.
Proof.
  intros H.
  rewrite skipn_app, firstn_app, length_skipn, skipn_skipn.
  replace (b - (length s - a))%nat with 0%nat by lia.
  rewrite skipn_0. cbn [firstn]. rewrite app_nil_r.
  rewrite firstn_add_split by lia.
  rewrite <- app_assoc. now rewrite (Nat.add_comm b a).
Qed.

Lemma rotation_full {A} (s : list A) :
  skipn (length s) s ++ firstn (length s) s = s.
Proof. now rewrite skipn_all, firstn_all. Qed.

Lemma rotation_nat {A} (s : list A) (o : Z) :
  0 <= o <= Z.of_nat (length s) ->
  slice_from s o ++ slice_to s o =
  skipn (Z.to_nat o) s ++ firstn (Z.to_nat o) s.
Proof.
  intros Ho. unfold slice_from, slice_to, slice_bound.
  destruct (o <? 0) eqn:E; [apply Z.ltb_lt in E; lia|].
  now rewrite Z.min_l by lia.
Qed.

Lemma rotation_negative {A} (s : list A) (k : Z) :
  0 < k <= Z.of_nat (length s) ->
  slice_from s (- k) ++ slice_to s (- k) =
  skipn (length s - Z.to_nat k) s ++ firstn (length s - Z.to_nat k) s.
Proof.
  intros Hk. unfold slice_from, slice_to, slice_bound.
  destruct (- k <? 0) eqn:E; [|apply Z.ltb_ge in E; lia].
  rewrite Z.max_r by lia.
  now replace (Z.to_nat (Z.of_nat (length s) + - k))
    with (length s - Z.to_nat k)%nat by lia.
Qed.

Lemma rotation_length {A} (s : list A) (o : Z) :
  length (slice_from s o ++ slice_to s o) = length s.
Proof. apply Permutation_length, slice_rotation_Permutation. Qed.

Lemma rotation_clamped {A} (s : list A) (o : Z) :
  Z.of_nat (length s) <= o \/ o <= - Z.of_nat (length s) ->
  slice_from s o ++ slice_to s o = s.
Proof.
  intros Ho. unfold slice_from, slice_to, slice_bound.
  destruct (o <? 0) eqn:E.
  - apply Z.ltb_lt in E. rewrite Z.max_l by lia.
    cbn. now rewrite app_nil_r.
  - apply Z.ltb_ge in E. destruct Ho as [Ho | Ho].
    + rewrite Z.min_r by lia. rewrite Nat2Z.id. apply rotation_full.
    + assert (length s = 0)%nat by lia.
      destruct s; [|discriminate].
      now rewrite skipn_nil, firstn_nil.
Qed.

Lemma rotation_back {A} (s : list A) (k : Z) :
  0 <= k <= Z.of_nat (length s) ->
  let s1 := slice_from s k ++ slice_to s k in
  let s2 := slice_from s (- k) ++ slice_to s (- k) in
  slice_from s1 (- k) ++ slice_to s1 (- k) = s /\
  slice_from s2 k ++ slice_to s2 k = s.
Proof.
  intros Hk s1 s2.
  destruct (Z.eq_dec k 0) as [-> | Hk0].
  - cbn [Z.opp] in *. unfold s1, s2.
    rewrite !(rotation_nat _ 0) by (rewrite ?rotation_length; lia).
    cbn. rewrite !app_nil_r. now split.
  - assert (Hn : (Z.to_nat k <= length s)%nat) by lia.
    split.
    + rewrite rotation_negative by (unfold s1; rewrite rotation_length; lia).
      unfold s1. rewrite rotation_length, rotation_nat by lia.
      rewrite rotation_add by lia.
      replace (Z.to_nat k + (length s - Z.to_nat k))%nat with (length s)
        by lia.
      apply rotation_full.
    + rewrite rotation_nat by (unfold s2; rewrite rotation_length; lia).
      unfold s2. rewrite rotation_negative by lia.
      rewrite rotation_add by lia.
      replace (length s - Z.to_nat k + Z.to_nat k)%nat with (length s)
        by lia.
      apply rotation_full.
Qed.

Lemma store_same (h : heap) (p : ref) : store h p (h p) = h.
Proof.
  apply functional_extensionality. intros q. unfold store.
  destruct (Nat.eqb q p) eqn:E; [|reflexivity].
  apply Nat.eqb_eq in E. now subst.
Qed.

Lemma iter_rotated_alphabet (k : nat) (r : Rotor) :
  (k <= length (alphabet r))%nat ->
  alphabet (Nat.iter k (rotated 1) r) =
  skipn k (alphabet r) ++ firstn k (alphabet r).
Proof.
  induction k as [|k IH]; intros Hk.
  - cbn. now rewrite app_nil_r.
  - cbn [Nat.iter nat_rect]. unfold rotated at 1. cbn [alphabet set_rotations set_alphabet].
    change (nat_rect (fun _ => Rotor) r (fun _ => rotated 1) k)
      with (Nat.iter k (rotated 1) r).
    rewrite IH by lia.
    rewrite rotation_nat
      by (rewrite length_app, length_skipn, length_firstn; lia).
    change (Z.to_nat 1) with 1%nat.
    rewrite rotation_add by lia. now rewrite Nat.add_1_r.
Qed.

Lemma iter_rotated_rotations (k : nat) (r : Rotor) :
  rotations r = 1 -> rotations (Nat.iter k (rotated 1) r) = 1.
Proof. intros H. destruct k; [exact H | reflexivity]. Qed.

Lemma iter_rotated_wiring (k : nat) (r : Rotor) :
  initial_offset (Nat.iter k (rotated 1) r) = initial_offset r /\
  forward_mappings (Nat.iter k (rotated 1) r) = forward_mappings r /\
  reverse_mappings (Nat.iter k (rotated 1) r) = reverse_mappings r.
Proof.
  induction k as [|k IH]; [now repeat split|].
  cbn [Nat.iter nat_rect]. exact IH.
Qed.

Lemma iter_rotated_full (r : Rotor) :
  rotations r = 1 ->
  Nat.iter (length (alphabet r)) (rotated 1) r = r.
Proof.
  intros Hr.
  pose proof (iter_rotated_alphabet (length (alphabet r)) r (le_n _)) as Ha.
  rewrite rotation_full in Ha.
  pose proof (iter_rotated_rotations (length (alphabet r)) r Hr) as Hn.
  destruct (iter_rotated_wiring (length (alphabet r)) r) as (Ho & Hf & Hv).
  destruct (Nat.iter (length (alphabet r)) (rotated 1) r) as [o a n f v].
  destruct r as [o' a' n' f' v']. cbn in *. congruence.
Qed.

(** ** Rotor.rotate *)

Lemma rotated_twice (a b : Z) (r : Rotor) :
  0 <= a -> 0 <= b -> a + b <= Z.of_nat (length (alphabet r)) ->
  rotated b (rotated a r) = set_rotations b (rotated (a + b) r).
Proof.
  intros Ha Hb Hab. destruct r as [o s n f v]. cbn in Hab.
  unfold rotated, set_rotations, set_alphabet. cbn. f_equal.
  rewrite (rotation_nat s a), (rotation_nat s (a + b)) by lia.
  rewrite rotation_nat
    by (rewrite length_app, length_skipn, length_firstn; lia).
  rewrite rotation_add by lia. now rewrite Z2Nat.inj_add by lia.
Qed.

(** X1: two calls [rotate(a)], [rotate(b)] with non-negative offsets whose
    sum does not exceed the length of the rotated alphabet leave the
    alphabet that one call [rotate(a + b)] leaves, but the rotation counter
    holds [b], the last argument, and not the sum. *)
Theorem X1_rotate_composes (self : ref) (a b : Z) (h : heap) :
  0 <= a -> 0 <= b -> a + b <= Z.of_nat (length (alphabet (h self))) ->
  exists h2,
    (Rotor_rotate self a ;; Rotor_rotate self b) h = (Ok tt, h2) /\
    alphabet (h2 self) = alphabet (snd (Rotor_rotate self (a + b) h) self) /\
    rotations (h2 self) = b /\
    (forall p, p <> self -> h2 p = h p).
Proof.
  intros Ha Hb Hab.
  rewrite (bind_ok _ _ _ _ _ (Rotor_rotate_run self a h)).
  rewrite !Rotor_rotate_run, store_eq, store_store. cbn [snd].
  eexists. split; [reflexivity|].
  rewrite !store_eq, rotated_twice by assumption.
  split; [reflexivity|]. split; [reflexivity|].
  intros p Hp. now apply store_neq.
Qed.

Lemma X1_rotate_composes_witness :
  exists h2,
    (Rotor_rotate 0%nat 4 ;; Rotor_rotate 0%nat 9) heap_turned = (Ok tt, h2) /\
    alphabet (h2 0%nat) =
      alphabet (snd (Rotor_rotate 0%nat 13 heap_turned) 0%nat) /\
    rotations (h2 0%nat) = 9.
Proof.
  destruct (X1_rotate_composes 0%nat 4 9 heap_turned) as [h2 (H1 & H2 & H3 & _)].
  - lia.
  - lia.
  - change (4 + 9 <= 26). lia.
  - exists h2. split; [exact H1|]. split; [exact H2 | exact H3].
Defined.

(** X2: a negative offset turns the rotor back.  For an offset [k] between
    0 and the length of the rotated alphabet, [rotate(k)] followed by
    [rotate(-k)], and [rotate(-k)] followed by [rotate(k)], restore the
    rotated alphabet; the counter holds the last argument. *)
Theorem X2_rotate_back (self : ref) (k : Z) (h : heap) :
  0 <= k <= Z.of_nat (length (alphabet (h self))) ->
  let h1 := snd ((Rotor_rotate self k ;; Rotor_rotate self (- k)) h) in
  let h2 := snd ((Rotor_rotate self (- k) ;; Rotor_rotate self k) h) in
  alphabet (h1 self) = alphabet (h self) /\ rotations (h1 self) = - k /\
  alphabet (h2 self) = alphabet (h self) /\ rotations (h2 self) = k.
Proof.
  intros Hk. cbv zeta.
  rewrite (bind_ok _ _ _ _ _ (Rotor_rotate_run self k h)).
  rewrite (bind_ok _ _ _ _ _ (Rotor_rotate_run self (- k) h)).
  rewrite !Rotor_rotate_run. cbn [snd]. rewrite !store_eq.
  destruct (rotation_back (alphabet (h self)) k Hk) as [H1 H2].
  unfold rotated. cbn [alphabet rotations set_rotations set_alphabet].
  now repeat split.
Qed.

Lemma X2_rotate_back_witness :
  alphabet (snd ((Rotor_rotate 0%nat 7 ;; Rotor_rotate 0%nat (-7))
                   heap_turned) 0%nat)
  = alphabet (heap_turned 0%nat).
Proof.
  refine (proj1 (X2_rotate_back 0%nat 7 heap_turned _)).
  change (0 <= 7 <= 26). lia.
Defined.

(** X3: an offset at or beyond the length of the rotated alphabet, in either
    direction, does not turn the rotor at all: the slices are clamped, the
    alphabet stays as it is, and only the counter takes the offset.
    [rotate(27)] is not [rotate(1)]. *)
Theorem X3_rotate_clamped (self : ref) (offset : Z) (h : heap) :
  Z.of_nat (length (alphabet (h self))) <= offset \/
  offset <= - Z.of_nat (length (alphabet (h self))) ->
  exists h', Rotor_rotate self offset h = (Ok tt, h') /\
    alphabet (h' self) = alphabet (h self) /\
    rotations (h' self) = offset.
Proof.
  intros Ho. rewrite Rotor_rotate_run. eexists. split; [reflexivity|].
  rewrite store_eq. unfold rotated.
  cbn [alphabet rotations set_rotations set_alphabet].
  split; [now apply rotation_clamped | reflexivity].
Qed.

Lemma X3_rotate_clamped_witness :
  exists h', Rotor_rotate 0%nat 27 heap3 = (Ok tt, h') /\
    alphabet (h' 0%nat) = alphabet (heap3 0%nat) /\
    rotations (h' 0%nat) = 27.
Proof.
  apply (X3_rotate_clamped 0%nat 27 heap3).
  left. change (26 <= 27). lia.
Defined.

Lemma rotate_times_run (self : ref) (n : nat) (h : heap) :
  rotate_times self n h =
  (Ok tt, store h self (Nat.iter n (rotated 1) (h self))).
Proof.
  unfold rotate_times. revert h. induction n as [|n IH]; intros h.
  - cbn. now rewrite store_same.
  - cbn [repeat for_each].
    rewrite (bind_ok _ _ _ _ _ (Rotor_rotate_run self 1 h)), IH.
    rewrite store_eq, store_store. now rewrite Nat.iter_succ_r.
Qed.

(** X4: as many calls of [rotate()] as the rotated alphabet has characters
    bring the alphabet back to where it was: a full revolution.  When the
    counter was 1 before, the whole heap is as before. *)
Theorem X4_rotate_full_turn (self : ref) (h : heap) :
  exists h',
    rotate_times self (length (alphabet (h self))) h = (Ok tt, h') /\
    alphabet (h' self) = alphabet (h self) /\
    (rotations (h self) = 1 -> h' = h).
Proof.
  rewrite rotate_times_run. eexists. split; [reflexivity|].
  rewrite store_eq. split.
  - rewrite iter_rotated_alphabet by apply le_n. apply rotation_full.
  - intros Hr. rewrite iter_rotated_full by assumption. apply store_same.
Qed.

Lemma X4_rotate_full_turn_witness :
  exists h',
    rotate_times 0%nat 26 heap3 = (Ok tt, h') /\ h' = heap3.
Proof.
  destruct (X4_rotate_full_turn 0%nat heap3) as [h' (H1 & _ & H3)].
  exists h'. split; [exact H1 | apply H3; reflexivity].
Defined.

(** ** Rotor.encipher, Rotor.decipher and Rotor.translate *)

Lemma reachable_wiring (w : str) (o : Z) (r : Rotor) :
  reachable w o r ->
  let a := slice_from ALPHABET o ++ slice_to ALPHABET o in
  initial_offset r = o /\
  forward_mappings r = dict_of (zip a w) /\
  reverse_mappings r = dict_of (zip w a) /\
  Permutation (alphabet r) ALPHABET.
Proof.
  intros H. induction H as [r Hc | self h k _ IH | self h _ IH]; cbv zeta.
  - apply constructed_eq in Hc. cbv zeta in Hc. subst r. cbn.
    repeat split. apply slice_rotation_Permutation.
  - rewrite Rotor_rotate_run. cbn [snd]. rewrite store_eq.
    destruct IH as (H1 & H2 & H3 & H4). repeat split; trivial.
    cbn. now rewrite slice_rotation_Permutation.
  - rewrite Rotor_reset_run. cbn [snd]. rewrite store_eq.
    destruct IH as (H1 & H2 & H3 & H4). repeat split; trivial.
    cbn. apply slice_rotation_Permutation.
Qed.

Lemma Rotor_encipher_run (self : ref) (c : ascii) (h : heap) :
  Rotor_encipher self c h = (dict_getitem (forward_mappings (h self)) c, h).
Proof. reflexivity. Qed.

Lemma Rotor_decipher_run (self : ref) (c : ascii) (h : heap) :
  Rotor_decipher self c h = (dict_getitem (reverse_mappings (h self)) c, h).
Proof. reflexivity. Qed.

(** X5: in a rotor built from a permutation of the alphabet, whatever its
    rotation, [encipher] and [decipher] are inverse bijections of the 26
    letters: each maps a letter to a letter, the other maps it back, and
    neither touches the heap. *)
Theorem X5_encipher_decipher_inverse
  (w : str) (o : Z) (self : ref) (h : heap) (c : ascii) :
  is_permutation w = true ->
  reachable w o (h self) ->
  In c ALPHABET ->
  (exists d, In d ALPHABET /\
     Rotor_encipher self c h = (Ok d, h) /\
     Rotor_decipher self d h = (Ok c, h)) /\
  (exists d, In d ALPHABET /\
     Rotor_decipher self c h = (Ok d, h) /\
     Rotor_encipher self d h = (Ok c, h)).
Proof.
  intros Hw Hreach Hc. apply is_permutation_spec in Hw.
  assert (Hwf := reachable_wf w o (h self) Hw Hreach).
  split.
  - destruct (wf_forward _ Hwf c Hc) as [d [Hd Hcd]].
    exists d. split; [assumption|].
    rewrite Rotor_encipher_run, Rotor_decipher_run. unfold dict_getitem.
    rewrite Hcd, (proj1 (wf_inverse _ Hwf c d) Hcd). now split.
  - destruct (wf_reverse _ Hwf c Hc) as [d [Hd Hcd]].
    exists d. split; [assumption|].
    rewrite Rotor_encipher_run, Rotor_decipher_run. unfold dict_getitem.
    rewrite Hcd, (proj2 (wf_inverse _ Hwf d c) Hcd). now split.
Qed.

Lemma X5_encipher_decipher_inverse_witness :
  exists d, In d ALPHABET /\
    Rotor_encipher 0%nat "Q" heap_turned = (Ok d, heap_turned) /\
    Rotor_decipher 0%nat d heap_turned = (Ok "Q"%char, heap_turned).
Proof.
  refine (proj1 (X5_encipher_decipher_inverse wiring_I 3 0%nat heap_turned
                   "Q"%char eq_refl _ _)).
  - apply (reach_rotate wiring_I 3 0%nat
             (snd (Rotor_init 0%nat wiring_I 3 blank_heap)) 5).
    apply reach_init. exists 0%nat, blank_heap. reflexivity.
  - apply contains_In. reflexivity.
Defined.

(** X6: the lookups of a rotor fail with [KeyError] outside its wiring,
    whatever string it was built from and however it was turned: [encipher]
    raises [KeyError] for every character that is not one of the 26
    letters, [decipher] for every character that does not occur in the
    wiring string.  The heap is left as it was. *)
Theorem X6_rotor_lookup_errors
  (w : str) (o : Z) (self : ref) (h : heap) (c : ascii) :
  reachable w o (h self) ->
  (~ In c ALPHABET -> Rotor_encipher self c h = (Raise (KeyError c), h)) /\
  (~ In c w -> Rotor_decipher self c h = (Raise (KeyError c), h)).
Proof.
  intros Hreach.
  destruct (reachable_wiring w o (h self) Hreach) as (_ & Hf & Hv & _).
  rewrite Rotor_encipher_run, Rotor_decipher_run, Hf, Hv.
  unfold dict_getitem. split; intros Hc.
  - rewrite dict_of_missing; [reflexivity|].
    intros H. apply Hc. apply combine_keys_In in H.
    now apply (Permutation_in _ (slice_rotation_Permutation ALPHABET o)).
  - rewrite dict_of_missing; [reflexivity|].
    intros H. apply Hc. now apply combine_keys_In in H.
Qed.

Lemma X6_rotor_lookup_errors_witness :
  Rotor_encipher 0%nat "q" heap_turned = (Raise (KeyError "q"), heap_turned).
Proof.
  refine (proj1 (X6_rotor_lookup_errors wiring_I 3 0%nat heap_turned
                   "q"%char _) _).
  - apply (reach_rotate wiring_I 3 0%nat
             (snd (Rotor_init 0%nat wiring_I 3 blank_heap)) 5).
    apply reach_init. exists 0%nat, blank_heap. reflexivity.
  - intros H. apply contains_In in H. discriminate H.
Defined.

Lemma cyclic_shift_nth_error (o : Z) (i : nat) :
  (i < 26)%nat ->
  nth_error (cyclic_shift ALPHABET o) i =
  Some (nth (Z.to_nat ((Z.of_nat i + o) mod 26)) ALPHABET "000"%char).
Proof.
  intros Hi. unfold cyclic_shift. rewrite nth_error_map, nth_error_seq.
  rewrite ALPHABET_length.
  destruct (Nat.ltb_spec i 26) as [_ | H]; [reflexivity | lia].
Qed.

(** X7: the wiring string is laid against the alphabet as rotated by the
    initial offset.  A rotor built by [Rotor(mappings, offset)], offset
    within -26..26, enciphers the letter at position [(i + offset) mod 26]
    of the alphabet to [mappings[i]], for every i below 26 that the string
    has, whatever rotations follow. *)
Theorem X7_wiring_against_rotated_alphabet
  (w : str) (o : Z) (self : ref) (h : heap) (i : nat) (d : ascii) :
  reachable w o (h self) ->
  -26 <= o <= 26 ->
  (i < 26)%nat ->
  nth_error w i = Some d ->
  exists c, getitem ALPHABET ((Z.of_nat i + o) mod 26) = Ok c /\
            Rotor_encipher self c h = (Ok d, h).
Proof.
  intros Hreach Ho Hi Hd.
  destruct (reachable_wiring w o (h self) Hreach) as (_ & Hf & _ & _).
  set (z := (Z.of_nat i + o) mod 26).
  assert (Hz : 0 <= z < 26) by (apply Z.mod_pos_bound; lia).
  exists (nth (Z.to_nat z) ALPHABET "000"%char). split.
  - rewrite <- (Z2Nat.id z) at 1 by lia. rewrite getitem_nat.
    rewrite (nth_error_nth' ALPHABET "000"%char)
      by (rewrite ALPHABET_length; lia).
    reflexivity.
  - rewrite Rotor_encipher_run, Hf, rotation_is_cyclic_shift by assumption.
    unfold dict_getitem, zip.
    assert (Hnd : NoDup (cyclic_shift ALPHABET o)).
    { rewrite <- rotation_is_cyclic_shift by assumption.
      apply (Permutation_NoDup
               (Permutation_sym (slice_rotation_Permutation ALPHABET o))).
      exact ALPHABET_NoDup. }
    rewrite dict_of_NoDup by now apply combine_keys_NoDup.
    rewrite dict_find_combine. unfold z.
    rewrite (find_NoDup _ _ i Hnd (cyclic_shift_nth_error o i Hi)).
    now rewrite Hd.
Qed.

Lemma X7_wiring_against_rotated_alphabet_witness :
  exists c, getitem ALPHABET ((Z.of_nat 0 + 3) mod 26) = Ok c /\
            Rotor_encipher 0%nat c heap_turned = (Ok "E"%char, heap_turned).
Proof.
  refine (X7_wiring_against_rotated_alphabet wiring_I 3 0%nat heap_turned
            0%nat "E"%char _ _ _ eq_refl).
  - apply (reach_rotate wiring_I 3 0%nat
             (snd (Rotor_init 0%nat wiring_I 3 blank_heap)) 5).
    apply reach_init. exists 0%nat, blank_heap. reflexivity.
  - lia.
  - lia.
Defined.

Lemma getitem_out_of_range {A} (s : list A) (i : Z) :
  Z.of_nat (length s) <= i \/ i < - Z.of_nat (length s) ->
  getitem s i = Raise IndexError.
Proof.
  intros Hi. unfold getitem.
  destruct (i <? 0) eqn:E.
  - apply Z.ltb_lt in E.
    replace (0 <=? i + Z.of_nat (length s)) with false
      by (symmetry; apply Z.leb_gt; lia).
    reflexivity.
  - apply Z.ltb_ge in E.
    replace (i <? Z.of_nat (length s)) with false
      by (symmetry; apply Z.ltb_ge; lia).
    now rewrite andb_false_r.
Qed.

Lemma getitem_negative {A} (s : list A) (i : Z) :
  - Z.of_nat (length s) <= i < 0 ->
  getitem s i = getitem s (i + Z.of_nat (length s)).
Proof.
  intros Hi. unfold getitem.
  replace (i <? 0) with true by (symmetry; apply Z.ltb_lt; lia).
  replace (i + Z.of_nat (length s) <? 0) with false
    by (symmetry; apply Z.ltb_ge; lia).
  reflexivity.
Qed.

Lemma translate_with_range (a : str) (d : dict) (i j : Z) :
  translate_with a d i = Ok j -> 0 <= j < Z.of_nat (length a).
Proof.
  unfold translate_with, rbind, index.
  destruct (getitem a i) as [x|]; [|discriminate].
  destruct (dict_getitem d x) as [y|]; [|discriminate].
  destruct (find a y) as [n|] eqn:E; [|discriminate].
  intros [= <-]. apply find_lt in E. lia.
Qed.

(** X8: the contact index of [translate] follows the indexing of a string
    of 26 characters, for a rotor in any state and of any wiring: an index
    of 26 or more, or below -26, raises [IndexError]; an index from -26 to
    -1 is the contact 26 positions further; and every index that
    [translate] returns lies in 0..25.  The heap is never changed. *)
Theorem X8_translate_bounds
  (w : str) (o : Z) (self : ref) (h : heap) (i : Z) (right : bool) :
  reachable w o (h self) ->
  (26 <= i \/ i < -26 ->
     Rotor_translate self i right h = (Raise IndexError, h)) /\
  (-26 <= i < 0 ->
     Rotor_translate self i right h = Rotor_translate self (i + 26) right h) /\
  (forall j h', Rotor_translate self i right h = (Ok j, h') ->
     0 <= j < 26 /\ h' = h).
Proof.
  intros Hreach.
  destruct (reachable_wiring w o (h self) Hreach) as (_ & _ & _ & Ha).
  assert (Hlen : Z.of_nat (length (alphabet (h self))) = 26)
    by now rewrite (Permutation_length Ha).
  rewrite !Rotor_translate_run. unfold translate_of.
  split; [|split].
  - intros Hi. unfold translate_with.
    rewrite getitem_out_of_range by (rewrite Hlen; lia). reflexivity.
  - intros Hi. unfold translate_with.
    rewrite getitem_negative by (rewrite Hlen; lia).
    now rewrite Hlen.
  - intros j h' [= Hj <-]. apply translate_with_range in Hj.
    split; [lia | reflexivity].
Qed.

Lemma X8_translate_bounds_witness :
  Rotor_translate 0%nat 26 true heap_turned = (Raise IndexError, heap_turned)
  /\ Rotor_translate 0%nat (-1) true heap_turned =
     Rotor_translate 0%nat (-1 + 26) true heap_turned.
Proof.
  assert (Hreach : reachable wiring_I 3 (heap_turned 0%nat)).
  { apply (reach_rotate wiring_I 3 0%nat
             (snd (Rotor_init 0%nat wiring_I 3 blank_heap)) 5).
    apply reach_init. exists 0%nat, blank_heap. reflexivity. }
  split.
  - apply (proj1 (X8_translate_bounds wiring_I 3 0%nat heap_turned 26 true
                    Hreach)). lia.
  - apply (proj1 (proj2 (X8_translate_bounds wiring_I 3 0%nat heap_turned
                           (-1) true Hreach))). lia.
Defined.

(** ** Reflector.__init__ and Reflector.__getitem__ *)

Lemma mapping_of_nth (s : str) (i : nat) (x : ascii) :
  nth_error ALPHABET i = Some x -> mapping_of s x = nth_error s i.
Proof.
  intros Hx. unfold mapping_of.
  now rewrite (find_NoDup _ _ _ ALPHABET_NoDup Hx).
Qed.

(** X9: a string of 26 characters is accepted by the constructor of the
    reflector exactly when all its characters are letters A-Z and the
    mapping it stands for is an involution; a string with any other
    character in it is never accepted. *)
Theorem X9_reflector_accepts_letters_only (s : str) :
  length s = 26%nat ->
  ((exists R, Reflector_init s = Ok R) <->
   is_alphabetic s = true /\
   forall x, In x ALPHABET -> mapping_twice s x = Some x).
Proof.
  intros Hlen. split.
  - intros [R HR].
    assert (Hwf := Reflector_init_wf s R Hlen HR).
    destruct (Reflector_init_Ok s R HR) as [-> _].
    assert (Hmap : forall x, In x ALPHABET ->
              exists y, In y ALPHABET /\ mapping_of s x = Some y /\
                        mapping_of s y = Some x).
    { intros x Hx. destruct (Hwf x Hx) as [y [Hy [H1 H2]]].
      unfold Reflector_getitem, dict_getitem in H1, H2. cbn [mappings] in *.
      rewrite reflector_dict_find in H1, H2.
      exists y. split; [assumption|].
      destruct (mapping_of s x); [|discriminate].
      destruct (mapping_of s y); [|discriminate].
      injection H1 as ->. injection H2 as ->. now split. }
    split.
    + apply is_alphabetic_spec, Forall_forall. intros c Hc.
      destruct (In_nth_error _ _ Hc) as [i Hi].
      assert (Hlt : (i < 26)%nat)
        by (rewrite <- Hlen; apply nth_error_Some; congruence).
      destruct (nth_error ALPHABET i) as [x|] eqn:Hx;
        [|apply nth_error_None in Hx; rewrite ALPHABET_length in Hx; lia].
      destruct (Hmap x (nth_error_In _ _ Hx)) as [y [Hy [H1 _]]].
      rewrite (mapping_of_nth s i x Hx), Hi in H1. now injection H1 as ->.
    + intros x Hx. destruct (Hmap x Hx) as [y [_ [H1 H2]]].
      unfold mapping_twice. now rewrite H1.
  - intros [Hs Hinv].
    destruct (Reflector_init_cases s Hlen Hs)
      as [[Hrun _] | [x [y [_ [Hx [Hxy Hyx]]]]]].
    + eexists. exact Hrun.
    + specialize (Hinv x Hx). unfold mapping_twice in Hinv.
      rewrite Hxy in Hinv. contradiction.
Qed.

Lemma X9_reflector_accepts_letters_only_witness :
  is_alphabetic wiring_B = true /\
  forall x, In x ALPHABET -> mapping_twice wiring_B x = Some x.
Proof.
  apply (proj1 (X9_reflector_accepts_letters_only wiring_B eq_refl)).
  exists reflector_B. reflexivity.
Defined.

(** X10: both constructors read 26 characters and no more, since [zip]
    stops at the end of the alphabet: characters after the 26th of a
    reflector string or of a rotor wiring change nothing. *)
Theorem X10_extra_characters_ignored (s t : str) :
  length s = 26%nat ->
  Reflector_init (s ++ t) = Reflector_init s /\
  (forall self o h, Rotor_init self (s ++ t) o h = Rotor_init self s o h).
Proof.
  intros Hlen.
  assert (Hcut : forall a : str, length a = 26%nat ->
            combine a (s ++ t) = combine a s /\
            combine (s ++ t) a = combine s a).
  { intros a Ha. split.
    - rewrite (combine_firstn_l a (s ++ t)), Ha, <- Hlen.
      rewrite firstn_app, firstn_all, Nat.sub_diag. cbn [firstn].
      now rewrite app_nil_r.
    - rewrite (combine_firstn_r (s ++ t) a), Ha, <- Hlen.
      rewrite firstn_app, firstn_all, Nat.sub_diag. cbn [firstn].
      now rewrite app_nil_r. }
  split.
  - unfold Reflector_init, zip.
    now rewrite (proj1 (Hcut ALPHABET ALPHABET_length)).
  - intros self o h. rewrite !Rotor_init_run. cbv zeta. unfold zip.
    destruct (Hcut (slice_from ALPHABET o ++ slice_to ALPHABET o))
      as [H1 H2].
    { now rewrite rotation_length. }
    now rewrite H1, H2.
Qed.

Lemma X10_extra_characters_ignored_witness :
  Reflector_init (wiring_B ++ lit "XYZ") = Reflector_init wiring_B.
Proof.
  exact (proj1 (X10_extra_characters_ignored wiring_B (lit "XYZ") eq_refl)).
Defined.

(** X11: the constructor of the reflector validates the letters its string
    covers and no others.  In a reflector it has returned, [reflect] of a
    letter whose position in the alphabet is at or beyond the length of the
    string raises [KeyError]: a string shorter than 26 characters can be
    accepted and fails later. *)
Theorem X11_short_reflector (s : str) (R : Reflector) (i : nat) (x : ascii) :
  Reflector_init s = Ok R ->
  (length s <= i)%nat ->
  nth_error ALPHABET i = Some x ->
  Reflector_getitem R x = Raise (KeyError x).
Proof.
  intros HR Hi Hx. destruct (Reflector_init_Ok s R HR) as [-> _].
  unfold Reflector_getitem, dict_getitem. cbn [mappings].
  rewrite reflector_dict_find, (mapping_of_nth s i x Hx).
  now rewrite (proj2 (nth_error_None s i) Hi).
Qed.

Lemma X11_short_reflector_witness :
  exists R, Reflector_init (lit "BADC") = Ok R /\
            Reflector_getitem R "E" = Raise (KeyError "E").
Proof.
  eexists. split; [reflexivity|].
  refine (X11_short_reflector (lit "BADC") _ 4%nat "E"%char eq_refl _ eq_refl).
  apply le_n.
Defined.

Lemma Reflector_check_first (d : dict) (keys : list ascii) (msg : str) :
  Reflector_check d keys = Raise (ValueError msg) ->
  exists pre x y z post,
    keys = pre ++ x :: post /\ msg = invalid_mapping x y /\
    dict_find d x = Some y /\ dict_find d y = Some z /\ z <> x /\
    forall x', In x' pre ->
      exists y', dict_find d x' = Some y' /\ dict_find d y' = Some x'.
Proof.
  induction keys as [|k keys IH]; [discriminate|].
  cbn [Reflector_check]. unfold rbind, dict_getitem.
  destruct (dict_find d k) as [y|] eqn:Hy; [|discriminate].
  destruct (dict_find d y) as [z|] eqn:Hz; [|discriminate].
  destruct (Ascii.eqb k z) eqn:E; cbn [negb].
  - apply Ascii.eqb_eq in E. subst z. intros Hrun.
    destruct (IH Hrun) as (pre & x & y' & z & post & H1 & H2 & H3 & H4 & H5 & H6).
    exists (k :: pre), x, y', z, post. subst keys.
    repeat split; trivial.
    intros x' [<- | Hx']; [now exists y | now apply H6].
  - intros [= <-]. exists [], k, y, z, keys.
    repeat split; trivial; [|intros x' []].
    intros ->. rewrite Ascii.eqb_refl in E. discriminate.
Qed.

(** X12: when the constructor of the reflector rejects a string of 26
    characters with a [ValueError], the pair in the message is the first
    asymmetric one in the order of the alphabet: the message names a letter
    x and y = mapping(x) with mapping(y) defined and different from x, and
    every letter before x is mapped back to itself by two applications. *)
Theorem X12_reflector_first_offender (s : str) (msg : str) :
  length s = 26%nat ->
  Reflector_init s = Raise (ValueError msg) ->
  exists pre x y z post,
    ALPHABET = pre ++ x :: post /\ msg = invalid_mapping x y /\
    mapping_of s x = Some y /\ mapping_of s y = Some z /\ z <> x /\
    forall x', In x' pre -> mapping_twice s x' = Some x'.
Proof.
  intros Hlen Hrun. unfold Reflector_init, rbind in Hrun.
  rewrite (reflector_dict_keys s Hlen) in Hrun.
  destruct (Reflector_check _ ALPHABET) as [[]|e] eqn:E; [discriminate|].
  injection Hrun as ->.
  destruct (Reflector_check_first _ _ _ E)
    as (pre & x & y & z & post & H1 & H2 & H3 & H4 & H5 & H6).
  rewrite reflector_dict_find in H3, H4.
  exists pre, x, y, z, post. repeat split; trivial.
  intros x' Hx'. destruct (H6 x' Hx') as [y' [K1 K2]].
  rewrite reflector_dict_find in K1, K2.
  unfold mapping_twice. now rewrite K1.
Qed.

Lemma X12_reflector_first_offender_witness :
  exists pre x y z post,
    ALPHABET = pre ++ x :: post /\
    invalid_mapping "B" "C" = invalid_mapping x y /\
    mapping_of (lit "ACDBEFGHIJKLMNOPQRSTUVWXYZ") x = Some y /\
    mapping_of (lit "ACDBEFGHIJKLMNOPQRSTUVWXYZ") y = Some z /\ z <> x /\
    forall x', In x' pre ->
      mapping_twice (lit "ACDBEFGHIJKLMNOPQRSTUVWXYZ") x' = Some x'.
Proof.
  exact (X12_reflector_first_offender (lit "ACDBEFGHIJKLMNOPQRSTUVWXYZ")
           (invalid_mapping "B" "C") eq_refl eq_refl).
Defined.

(** ** Machine.encipher and Machine.encipher_character *)

Lemma getitem_In {A} (s : list A) (i : Z) (a : A) :
  getitem s i = Ok a -> In a s.
Proof.
  unfold getitem.
  destruct ((0 <=? _) && (_ <? _)); [|discriminate].
  destruct (nth_error s _) as [b|] eqn:E; [|discriminate].
  intros [= <-]. eapply nth_error_In; eassumption.
Qed.

Lemma encipher_character_result (m : Machine) (x c : ascii) (h h' : heap) :
  Machine_encipher_character m x h = (Ok c, h') ->
  if contains ALPHABET (upper x) then In c ALPHABET
  else c = upper x /\ h' = h.
Proof.
  intros Hrun. destruct (contains ALPHABET (upper x)) eqn:Hx.
  - rewrite (encipher_character_letter m x h Hx) in Hrun.
    destruct (route_of _ _ _) as [ci|e]; [|discriminate].
    destruct (stepping_spec (rotors m) h) as [[[]|e] h1]; [|discriminate].
    injection Hrun as Hc _. eapply getitem_In; eassumption.
  - rewrite (encipher_character_other m x h Hx) in Hrun.
    injection Hrun as <- <-. now split.
Qed.

(** X13: for a text of characters whose uppercase form is an 8-bit
    character: when [encipher] returns, its result has exactly one
    character for every character of the text, a letter A-Z where the text
    has a letter of either case, and the uppercase form of the character of
    the text everywhere else. *)
Theorem X13_encipher_shape (m : Machine) (text out : str) (h h' : heap) :
  forallb has_upper text = true ->
  Machine_encipher m text h = (Ok out, h') ->
  length out = length text /\
  Forall2 (fun x c => if contains ALPHABET (upper x)
                      then In c ALPHABET else c = upper x) text out.
Proof.
  intros _.
  revert out h h'. induction text as [|x text IH]; intros out h h' Hrun.
  - injection Hrun as <- _. split; [reflexivity | constructor].
  - rewrite Machine_encipher_cons in Hrun. unfold bind, ret in Hrun.
    destruct (Machine_encipher_character m x h) as [[c|e] h1] eqn:Ex;
      [|discriminate].
    destruct (Machine_encipher m text h1) as [[cs|e] h2] eqn:Et;
      [|discriminate].
    injection Hrun as <- _.
    destruct (IH cs h1 h2 Et) as [Hlen Hall].
    split; [cbn; now rewrite Hlen|].
    constructor; [|exact Hall].
    pose proof (encipher_character_result m x c h h1 Ex) as Hc.
    destruct (contains ALPHABET (upper x)); [exact Hc | apply Hc].
Qed.

Lemma X13_encipher_shape_witness :
  length (lit "NW 1") = length (lit "Ab 1") /\
  Forall2 (fun x c => if contains ALPHABET (upper x)
                      then In c ALPHABET else c = upper x)
          (lit "Ab 1") (lit "NW 1").
Proof.
  exact (X13_encipher_shape machine3 (lit "Ab 1") (lit "NW 1") heap3
           (snd (Machine_encipher machine3 (lit "Ab 1") heap3))
           eq_refl
           (run_pairing (Machine_encipher machine3 (lit "Ab 1") heap3)
              (lit "NW 1") eq_refl)).
Defined.

Lemma encipher_character_upper (m : Machine) (x : ascii) :
  Machine_encipher_character m (upper x) = Machine_encipher_character m x.
Proof.
  unfold Machine_encipher_character. cbv zeta.
  now rewrite upper_idempotent.
Qed.

(** X14: [encipher] does not see the case of letters.  A text of
    characters whose uppercase form is an 8-bit character and the uppercase
    form of that text give the same result, be it a cipher text or an
    exception, and leave the same heap. *)
Theorem X14_encipher_ignores_case (m : Machine) (text : str) (h : heap) :
  forallb has_upper text = true ->
  Machine_encipher m (map upper text) h = Machine_encipher m text h.
Proof.
  intros _.
  revert h. induction text as [|x text IH]; intros h; [reflexivity|].
  cbn [map]. rewrite !Machine_encipher_cons, encipher_character_upper.
  unfold bind.
  destruct (Machine_encipher_character m x h) as [[c|e] h1]; [|reflexivity].
  now rewrite IH.
Qed.

Lemma X14_encipher_ignores_case_witness :
  Machine_encipher machine3 (lit "MEET ME AT 9.") heap3 =
  Machine_encipher machine3 (lit "Meet me at 9.") heap3.
Proof.
  exact (X14_encipher_ignores_case machine3 (lit "Meet me at 9.") heap3
           eq_refl).
Defined.

(** X15: [encipher] of a concatenation is [encipher] of the first text
    followed by [encipher] of the second on the rotors as the first has
    left them, the results being concatenated; an exception in either part
    is the exception of the whole. *)
Theorem X15_encipher_concatenation
  (m : Machine) (text1 text2 : str) (h : heap) :
  Machine_encipher m (text1 ++ text2) h =
  (c1 <- Machine_encipher m text1 ;;
   c2 <- Machine_encipher m text2 ;;
   ret (c1 ++ c2)) h.
Proof.
  revert h. induction text1 as [|a text1 IH]; intros h.
  - cbn [app]. unfold bind at 1. cbn. unfold bind, ret.
    destruct (Machine_encipher m text2 h) as [[c2|e] h2]; reflexivity.
  - cbn [app]. unfold bind. rewrite !Machine_encipher_cons.
    unfold bind, ret.
    destruct (Machine_encipher_character m a h) as [[c|e] h1];
      [|reflexivity].
    rewrite IH. unfold bind, ret.
    destruct (Machine_encipher m text1 h1) as [[c1|e] h2]; [|reflexivity].
    destruct (Machine_encipher m text2 h2) as [[c2|e] h3]; reflexivity.
Qed.

Lemma encipher_character_turned (m : Machine) (x : ascii) (h : heap) :
  turned m h (snd (Machine_encipher_character m x h)).
Proof.
  destruct (contains ALPHABET (upper x)) eqn:Hx.
  - rewrite (encipher_character_letter m x h Hx).
    destruct (route_of _ _ _) as [ci|e]; [|apply turned_refl].
    destruct (rotors m) as [|r0 rest] eqn:E; [apply turned_refl|].
    destruct (stepping_spec_turned r0 rest h) as [h' [Hstep [Hw Hf]]].
    rewrite Hstep. cbn [snd]. split; [exact Hw|].
    intros p Hp. apply Hf. now rewrite <- E.
  - rewrite (encipher_character_other m x h Hx). apply turned_refl.
Qed.

Lemma encipher_turned (m : Machine) (text : str) (h : heap) :
  turned m h (snd (Machine_encipher m text h)).
Proof.
  revert h. induction text as [|x text IH]; intros h; [apply turned_refl|].
  rewrite Machine_encipher_cons. unfold bind, ret.
  pose proof (encipher_character_turned m x h) as H1.
  destruct (Machine_encipher_character m x h) as [[c|e] h1];
    cbn [snd] in *; [|exact H1].
  pose proof (IH h1) as H2.
  destruct (Machine_encipher m text h1) as [[cs|e] h2];
    cbn [snd] in *; eapply turned_trans; eassumption.
Qed.

Lemma reset_heap_turned (m : Machine) (h h' : heap) :
  turned m h h' -> reset_heap (rotors m) h' = reset_heap (rotors m) h.
Proof.
  intros [Hw Hf]. apply functional_extensionality. intros p.
  destruct (in_dec Nat.eq_dec p (rotors m)) as [Hp | Hp].
  - rewrite !(reset_heap_In _ _ _ Hp).
    apply same_wiring_reset_state, Hw.
  - rewrite !(reset_heap_not_In _ _ _ Hp). now apply Hf.
Qed.

(** X16: [decipher] does not depend on where the rotors stand when it is
    called.  After any run of [encipher], finished or stopped by an
    exception, [decipher] of a text returns what it would have returned
    before the run, and leaves the heap it would have left. *)
Theorem X16_decipher_ignores_position
  (m : Machine) (text c : str) (h : heap) :
  Machine_decipher m c (snd (Machine_encipher m text h)) =
  Machine_decipher m c h.
Proof.
  unfold Machine_decipher.
  rewrite (bind_ok _ _ _ _ _ (Machine_reset_run m _)).
  rewrite (bind_ok _ _ _ _ _ (Machine_reset_run m h)).
  now rewrite (reset_heap_turned m h _ (encipher_turned m text h)).
Qed.

(** X17: [reset] undoes every run.  On a machine whose rotors are fresh
    from their constructor, [reset] after a run of [encipher] on any text,
    finished or stopped by an exception, gives back the heap from before
    the run. *)
Theorem X17_reset_undoes_runs (m : Machine) (text : str) (h : heap) :
  (forall p, In p (rotors m) -> exists w o, constructed w o (h p)) ->
  Machine_reset m (snd (Machine_encipher m text h)) = (Ok tt, h).
Proof.
  intros Hfresh. rewrite Machine_reset_run. f_equal.
  apply reset_after_run; [|apply encipher_turned].
  intros p Hp. destruct (Hfresh p Hp) as [w [o Hc]].
  eapply constructed_reset_state; eassumption.
Qed.

Lemma X17_reset_undoes_runs_witness :
  Machine_reset machine3
    (snd (Machine_encipher machine3 (lit "Attack at dawn") heap3))
  = (Ok tt, heap3).
Proof.
  apply (X17_reset_undoes_runs machine3 (lit "Attack at dawn") heap3).
  intros p [<- | [<- | [<- | []]]].
  - exists wiring_I, 0, 0%nat, blank_heap. reflexivity.
  - exists wiring_II, 0, 1%nat, blank_heap. reflexivity.
  - exists wiring_III, 0, 2%nat, blank_heap. reflexivity.
Defined.

Lemma well_wired_wf (m : Machine) (h : heap) :
  well_wired m h -> forall p, In p (rotors m) -> rotor_wf (h p).
Proof.
  intros H p Hp. destruct (H p Hp) as [w [o [Hw Hr]]].
  apply is_permutation_spec in Hw. eapply reachable_wf; eassumption.
Qed.

Lemma freshly_built_well_wired (m : Machine) (h : heap) :
  freshly_built m h -> well_wired m h.
Proof.
  intros H p Hp. destruct (H p Hp) as [w [o [Hw Hc]]].
  exists w, o. split; [assumption | now apply reach_init].
Qed.

Lemma encipher_character_involution_any (m : Machine) (x : ascii) (h : heap) :
  rotors m <> [] ->
  (forall p, In p (rotors m) -> rotor_wf (h p)) ->
  reflector_wf (reflector m) ->
  exists y h',
    Machine_encipher_character m x h = (Ok y, h') /\
    Machine_encipher_character m y h = (Ok (upper x), h') /\
    turned m h h'.
Proof.
  intros Hne Hwf HR. destruct (contains ALPHABET (upper x)) eqn:Hx.
  - destruct (encipher_character_involution m (upper x) h Hne Hwf HR
                (proj1 (contains_In _ _) Hx))
      as [y [h' [_ [H1 [H2 Ht]]]]].
    exists y, h'. rewrite encipher_character_upper in H1.
    split; [exact H1|]. split; [exact H2 | exact Ht].
  - exists (upper x), h.
    rewrite (encipher_character_upper m x).
    rewrite (encipher_character_other m x h Hx).
    split; [reflexivity|]. split; [reflexivity | apply turned_refl].
Qed.

Lemma encipher_involution_any (m : Machine) (text : str) :
  rotors m <> [] ->
  reflector_wf (reflector m) ->
  forall h, (forall p, In p (rotors m) -> rotor_wf (h p)) ->
  exists cipher h',
    Machine_encipher m text h = (Ok cipher, h') /\
    Machine_encipher m cipher h = (Ok (map upper text), h') /\
    turned m h h'.
Proof.
  intros Hne HR. induction text as [|x text IH]; intros h Hwf.
  - exists [], h. split; [reflexivity|].
    split; [reflexivity | apply turned_refl].
  - destruct (encipher_character_involution_any m x h Hne Hwf HR)
      as [y [h1 [Hxy [Hyx Ht1]]]].
    destruct (IH h1 (turned_wf m h h1 Ht1 Hwf))
      as [cipher [h' [Hrun [Hback Ht2]]]].
    exists (y :: cipher), h'. cbn [map].
    rewrite !Machine_encipher_cons.
    rewrite (bind_ok _ _ _ _ _ Hxy), (bind_ok _ _ _ _ _ Hyx).
    rewrite (bind_ok _ _ _ _ _ Hrun), (bind_ok _ _ _ _ _ Hback).
    split; [reflexivity|]. split; [reflexivity|].
    eapply turned_trans; eassumption.
Qed.

(** X18: the machine is its own inverse at every rotor position, on
    letters and other characters alike.  With at least one rotor, rotors
    built from permutations of the alphabet (rotated and reset at will) and
    a reflector accepted from 26 characters, [encipher] returns for every
    text of characters whose uppercase form is an 8-bit character; a second
    run of [encipher] from the same heap on that result returns the text
    uppercased, and both runs leave the same heap. *)
Theorem X18_encipher_self_inverse
  (m : Machine) (wiring : str) (h : heap) (text : str) :
  rotors m <> [] ->
  well_wired m h ->
  length wiring = 26%nat ->
  Reflector_init wiring = Ok (reflector m) ->
  forallb has_upper text = true ->
  exists cipher h',
    Machine_encipher m text h = (Ok cipher, h') /\
    Machine_encipher m cipher h = (Ok (map upper text), h').
Proof.
  intros Hne Hw Hlen HR _.
  destruct (encipher_involution_any m text Hne
              (Reflector_init_wf _ _ Hlen HR) h (well_wired_wf m h Hw))
    as [cipher [h' [H1 [H2 _]]]].
  now exists cipher, h'.
Qed.

Lemma X18_encipher_self_inverse_witness :
  exists cipher h',
    Machine_encipher machine3 (lit "Meet me at 9.") heap3 = (Ok cipher, h') /\
    Machine_encipher machine3 cipher heap3 = (Ok (lit "MEET ME AT 9."), h').
Proof.
  refine (X18_encipher_self_inverse machine3 wiring_B heap3
            (lit "Meet me at 9.") _ _ eq_refl eq_refl eq_refl).
  - discriminate.
  - intros p [<- | [<- | [<- | []]]].
    + exists wiring_I, 0. split; [reflexivity|].
      apply reach_init. exists 0%nat, blank_heap. reflexivity.
    + exists wiring_II, 0. split; [reflexivity|].
      apply reach_init. exists 1%nat, blank_heap. reflexivity.
    + exists wiring_III, 0. split; [reflexivity|].
      apply reach_init. exists 2%nat, blank_heap. reflexivity.
Defined.

(** X19: the round trip holds beyond the letters A-Z.  On a freshly built
    machine with at least one rotor, [decipher] of what [encipher] returned
    for a text of characters whose uppercase form is an 8-bit character is
    that text uppercased: lower-case letters, accented ones too, come back
    as capitals, and every other character as itself. *)
Theorem X19_round_trip_any_text
  (m : Machine) (wiring : str) (h : heap) (text : str) :
  rotors m <> [] ->
  freshly_built m h ->
  length wiring = 26%nat ->
  Reflector_init wiring = Ok (reflector m) ->
  forallb has_upper text = true ->
  exists cipher h1 h2,
    Machine_encipher m text h = (Ok cipher, h1) /\
    Machine_decipher m cipher h1 = (Ok (map upper text), h2).
Proof.
  intros Hne Hfresh Hlen HR _.
  destruct (encipher_involution_any m text Hne
              (Reflector_init_wf _ _ Hlen HR) h (freshly_built_wf m h Hfresh))
    as [cipher [h1 [H1 [H2 Ht]]]].
  exists cipher, h1, h1. split; [exact H1|].
  unfold Machine_decipher.
  rewrite (bind_ok _ _ _ _ _ (Machine_reset_run m h1)).
  now rewrite (reset_after_run m h h1 (freshly_built_reset m h Hfresh) Ht).
Qed.

Lemma X19_round_trip_any_text_witness :
  exists cipher h1 h2,
    Machine_encipher machine3 (lit "Meet me at 9.") heap3 = (Ok cipher, h1) /\
    Machine_decipher machine3 cipher h1 = (Ok (lit "MEET ME AT 9."), h2).
Proof.
  refine (X19_round_trip_any_text machine3 wiring_B heap3
            (lit "Meet me at 9.") _ _ eq_refl eq_refl eq_refl).
  - discriminate.
  - intros p [<- | [<- | [<- | []]]].
    + exists wiring_I, 0. split; [reflexivity|].
      exists 0%nat, blank_heap. reflexivity.
    + exists wiring_II, 0. split; [reflexivity|].
      exists 1%nat, blank_heap. reflexivity.
    + exists wiring_III, 0. split; [reflexivity|].
      exists 2%nat, blank_heap. reflexivity.
Defined.

(** ** The position of the rotors after a run *)

Lemma letters_cons (x : ascii) (text : str) :
  letters (x :: text) =
  if contains ALPHABET (upper x) then S (letters text) else letters text.
Proof.
  unfold letters. cbn [filter].
  destruct (contains ALPHABET (upper x)); reflexivity.
Qed.

Lemma encipher_character_heap
  (m : Machine) (r0 : ref) (rest : list ref) (x c : ascii) (h h' : heap) :
  rotors m = r0 :: rest ->
  (forall q, In q rest -> rotations (h q) = 1) ->
  Machine_encipher_character m x h = (Ok c, h') ->
  h' = if contains ALPHABET (upper x)
       then store h r0 (rotated 1 (h r0)) else h.
Proof.
  intros E Hinv Hrun. destruct (contains ALPHABET (upper x)) eqn:Hx.
  - rewrite (encipher_character_letter m x h Hx) in Hrun.
    destruct (route_of _ _ _) as [ci|e]; [|discriminate].
    rewrite E, (stepping_spec_idle r0 rest h Hinv) in Hrun.
    now injection Hrun as _ <-.
  - rewrite (encipher_character_other m x h Hx) in Hrun.
    now injection Hrun as _ <-.
Qed.

Lemma encipher_heap
  (m : Machine) (r0 : ref) (rest : list ref) (text : str) :
  rotors m = r0 :: rest ->
  forall (out : str) (h h' : heap),
  (forall q, In q rest -> rotations (h q) = 1) ->
  Machine_encipher m text h = (Ok out, h') ->
  h' = store h r0 (Nat.iter (letters text) (rotated 1) (h r0)).
Proof.
  intros E. induction text as [|x text IH]; intros out h h' Hinv Hrun.
  - injection Hrun as _ <-. cbn. now rewrite store_same.
  - rewrite Machine_encipher_cons in Hrun. unfold bind, ret in Hrun.
    destruct (Machine_encipher_character m x h) as [[c|e] h1] eqn:Ex;
      [|discriminate].
    destruct (Machine_encipher m text h1) as [[cs|e] h2] eqn:Et;
      [|discriminate].
    injection Hrun as _ <-.
    pose proof (encipher_character_heap m r0 rest x c h h1 E Hinv Ex) as H1.
    rewrite letters_cons.
    destruct (contains ALPHABET (upper x)); subst h1.
    + assert (Hinv1 : forall q, In q rest ->
                rotations (store h r0 (rotated 1 (h r0)) q) = 1).
      { intros q Hq. unfold store.
        destruct (Nat.eqb q r0); [reflexivity | now apply Hinv]. }
      rewrite (IH cs _ h2 Hinv1 Et).
      now rewrite store_eq, store_store, Nat.iter_succ_r.
    + now apply (IH cs h h2).
Qed.

(** X20: the position of the rotors after a run depends on the number of
    letters of the text and on nothing else.  In a machine whose rotors
    after the first have the counter 1 (as after construction or reset),
    the heap after [encipher] has returned is the heap after as many calls
    of [rotate()] on the first rotor as the text has letters: which letters
    they are, and the characters between them, make no difference. *)
Theorem X20_rotors_count_letters
  (m : Machine) (r0 : ref) (rest : list ref) (text out : str) (h h' : heap) :
  rotors m = r0 :: rest ->
  (forall q, In q rest -> rotations (h q) = 1) ->
  Machine_encipher m text h = (Ok out, h') ->
  h' = snd (rotate_times r0 (letters text) h).
Proof.
  intros E Hinv Hrun. rewrite rotate_times_run. cbn [snd].
  eapply encipher_heap; eassumption.
Qed.

Lemma X20_rotors_count_letters_witness :
  snd (Machine_encipher machine3 (lit "Meet me at 9.") heap3) =
  snd (rotate_times 0%nat 8 heap3).
Proof.
  pose (run := Machine_encipher machine3 (lit "Meet me at 9.") heap3).
  pose (out := match fst run with Ok o => o | Raise _ => [] end).
  refine (X20_rotors_count_letters machine3 0%nat [1; 2]%nat
            (lit "Meet me at 9.") out heap3 (snd run) eq_refl _
            (run_pairing run out eq_refl)).
  intros q [<- | [<- | []]]; reflexivity.
Defined.

Lemma iter_rotated_turns (k : nat) (r : Rotor) :
  rotations r = 1 ->
  Nat.iter (k * length (alphabet r)) (rotated 1) r = r.
Proof.
  intros Hr. induction k as [|k IH]; [reflexivity|].
  cbn [Nat.mul]. rewrite Nat.iter_add, IH.
  now apply iter_rotated_full.
Qed.

(** X21: the key stream has period 26.  In a machine whose rotors all have
    the counter 1 and whose first rotor shows 26 characters, a run of
    [encipher] over a text with a multiple of 26 letters that returns
    leaves the heap exactly as it found it: the letter after it is
    enciphered like the first one, however many rotors the machine has. *)
Theorem X21_period_26
  (m : Machine) (r0 : ref) (rest : list ref) (k : nat)
  (text out : str) (h h' : heap) :
  rotors m = r0 :: rest ->
  (forall q, In q (r0 :: rest) -> rotations (h q) = 1) ->
  length (alphabet (h r0)) = 26%nat ->
  letters text = (k * 26)%nat ->
  Machine_encipher m text h = (Ok out, h') ->
  h' = h.
Proof.
  intros E Hinv Hlen Hk Hrun.
  rewrite (encipher_heap m r0 rest text E out h h'
             (fun q Hq => Hinv q (or_intror Hq)) Hrun).
  rewrite Hk, <- Hlen.
  rewrite iter_rotated_turns by (apply Hinv; now left).
  apply store_same.
Qed.

Lemma X21_period_26_witness :
  snd (Machine_encipher machine3
         (lit "The quick brown fox jumps over the lazy dog. Twice? The quick brow!")
         heap3) = heap3.
Proof.
  pose (run := Machine_encipher machine3
         (lit "The quick brown fox jumps over the lazy dog. Twice? The quick brow!")
         heap3).
  pose (out := match fst run with Ok o => o | Raise _ => [] end).
  refine (X21_period_26 machine3 0%nat [1; 2]%nat 2
            (lit "The quick brown fox jumps over the lazy dog. Twice? The quick brow!")
            out heap3 (snd run) eq_refl _ eq_refl eq_refl
            (run_pairing run out eq_refl)).
  intros q [<- | [<- | [<- | []]]]; reflexivity.
Defined.

(** ** What the reflector implies for the cipher *)

Lemma cipher_of_moves (rs : list Rotor) (R : Reflector) (x : ascii) :
  Forall rotor_wf rs -> reflector_wf R ->
  (forall c, In c ALPHABET -> Reflector_getitem R c <> Ok c) ->
  In x ALPHABET ->
  cipher_of rs R x <> Ok x.
Proof.
  intros Hrs HR Hfix Hx Hcx.
  destruct (alphabet_index x Hx) as [i0 [Hi0 [Ix Gx]]].
  destruct (chain_forward_reverse rs i0 Hrs Hi0) as [j [Hj [F1 B1]]].
  destruct (alphabet_getitem j Hj) as [c [Hc [Gc Ic]]].
  destruct (HR c Hc) as [c' [Hc' [R1 R2]]].
  destruct (alphabet_index c' Hc') as [j' [Hj' [Ic' Gc']]].
  destruct (chain_reverse_forward rs j' Hrs Hj') as [i1 [Hi1 [B2 F2]]].
  destruct (alphabet_getitem i1 Hi1) as [y [Hy [Gy Iy]]].
  unfold cipher_of, route_of in Hcx.
  rewrite Ix in Hcx; simpl in Hcx. rewrite F1 in Hcx; simpl in Hcx.
  rewrite Gc in Hcx; simpl in Hcx. rewrite R1 in Hcx; simpl in Hcx.
  rewrite Ic' in Hcx; simpl in Hcx. rewrite B2 in Hcx; simpl in Hcx.
  rewrite Gy in Hcx. injection Hcx as ->.
  rewrite Ix in Iy. injection Iy as Hi. apply Nat2Z.inj in Hi. subst i1.
  rewrite F1 in F2. injection F2 as Hjj. apply Nat2Z.inj in Hjj. subst j'.
  rewrite Gc in Gc'. injection Gc' as <-.
  exact (Hfix c Hc R1).
Qed.

(** X22: no letter is enciphered to itself when the reflector has no fixed
    point.  With rotors built from permutations of the alphabet and a
    reflector accepted from 26 characters that maps no letter to itself,
    the character that [encipher_character] returns for a letter differs
    from that letter (uppercased), at every position of the rotors. *)
Theorem X22_no_letter_to_itself
  (m : Machine) (wiring : str) (h h' : heap) (x y : ascii) :
  well_wired m h ->
  length wiring = 26%nat ->
  Reflector_init wiring = Ok (reflector m) ->
  (forall c, In c ALPHABET -> mapping_of wiring c <> Some c) ->
  contains ALPHABET (upper x) = true ->
  Machine_encipher_character m x h = (Ok y, h') ->
  y <> upper x.
Proof.
  intros Hw Hlen HR Hfix Hx Hrun Hy. subst y.
  rewrite (encipher_character_letter m x h Hx) in Hrun.
  destruct (route_of _ _ _) as [ci|e] eqn:Hroute; [|discriminate].
  destruct (stepping_spec (rotors m) h) as [[[]|e] h1]; [|discriminate].
  injection Hrun as Hget _.
  apply (cipher_of_moves (map h (rotors m)) (reflector m) (upper x)).
  - apply Forall_map, Forall_forall. now apply well_wired_wf.
  - exact (Reflector_init_wf _ _ Hlen HR).
  - intros c Hc Hcc. apply (Hfix c Hc).
    destruct (Reflector_init_Ok _ _ HR) as [E _]. rewrite E in Hcc.
    unfold Reflector_getitem, dict_getitem in Hcc. cbn [mappings] in Hcc.
    rewrite reflector_dict_find in Hcc.
    destruct (mapping_of wiring c); [|discriminate]. now injection Hcc as ->.
  - now apply contains_In.
  - unfold cipher_of. now rewrite Hroute.
Qed.

Lemma X22_no_letter_to_itself_witness :
  "N"%char <> upper "a".
Proof.
  refine (X22_no_letter_to_itself machine3 wiring_B heap3
            (snd (Machine_encipher_character machine3 "a" heap3))
            "a"%char "N"%char _ eq_refl eq_refl _ eq_refl
            (run_pairing (Machine_encipher_character machine3 "a" heap3)
               "N"%char eq_refl)).
  - intros p [<- | [<- | [<- | []]]].
    + exists wiring_I, 0. split; [reflexivity|].
      apply reach_init. exists 0%nat, blank_heap. reflexivity.
    + exists wiring_II, 0. split; [reflexivity|].
      apply reach_init. exists 1%nat, blank_heap. reflexivity.
    + exists wiring_III, 0. split; [reflexivity|].
      apply reach_init. exists 2%nat, blank_heap. reflexivity.
  - unfold ALPHABET, lit; simpl. intros c Hc.
    repeat (destruct Hc as [<- | Hc]; [discriminate|]).
    contradiction.
Defined.

(** ** A machine without rotors *)

Lemma encipher_character_no_rotors (m : Machine) (x : ascii) (h : heap) :
  rotors m = [] ->
  reflector_wf (reflector m) ->
  contains ALPHABET (upper x) = true ->
  Machine_encipher_character m x h = (Raise IndexError, h).
Proof.
  intros E HR Hx. rewrite (encipher_character_letter m x h Hx), E.
  destruct (cipher_of_involution [] (reflector m) (upper x)
              (Forall_nil _) HR (proj1 (contains_In _ _) Hx))
    as [y [_ [Hy _]]].
  unfold cipher_of in Hy. cbn [map].
  destruct (route_of [] (reflector m) (upper x)); [reflexivity|discriminate].
Qed.

(** X23: a machine built with an empty rotor list passes texts without
    letters through, uppercased, and can encipher nothing else.  With a
    reflector accepted from 26 characters and a text of characters whose
    uppercase form is an 8-bit character, [encipher] returns the uppercase
    form of the text when it has no letter, and raises [IndexError] as soon
    as it has one; the heap is untouched either way. *)
Theorem X23_machine_without_rotors
  (m : Machine) (wiring : str) (text : str) (h : heap) :
  rotors m = [] ->
  length wiring = 26%nat ->
  Reflector_init wiring = Ok (reflector m) ->
  forallb has_upper text = true ->
  Machine_encipher m text h =
  (if (letters text =? 0)%nat then Ok (map upper text) else Raise IndexError,
   h).
Proof.
  intros E Hlen HR _. assert (Hwf := Reflector_init_wf _ _ Hlen HR).
  induction text as [|x text IH]; [reflexivity|].
  rewrite Machine_encipher_cons, letters_cons.
  destruct (contains ALPHABET (upper x)) eqn:Hx.
  - now rewrite (bind_raise _ _ _ _ _
                   (encipher_character_no_rotors m x h E Hwf Hx)).
  - rewrite (bind_ok _ _ _ _ _ (encipher_character_other m x h Hx)).
    unfold bind, ret. rewrite IH.
    destruct (letters text =? 0)%nat; reflexivity.
Qed.

Lemma X23_machine_without_rotors_witness :
  Machine_encipher machine0 (lit "12:30 a.m.") blank_heap =
  (Raise IndexError, blank_heap).
Proof.
  exact (X23_machine_without_rotors machine0 wiring_B (lit "12:30 a.m.")
           blank_heap eq_refl eq_refl eq_refl eq_refl).
Defined.

(** ** Reset, rotation and the contacts *)

(** X24: [reset] brings a rotor back to the state its constructor left it
    in.  From any state that [rotate] and [reset] can reach, the attributes
    after [reset] are those right after [Rotor(mappings, offset)]. *)
Theorem X24_reset_is_construction
  (w : str) (o : Z) (self : ref) (h h0 : heap) :
  reachable w o (h self) ->
  snd (Rotor_reset self h) self = snd (Rotor_init self w o h0) self.
Proof.
  intros Hreach.
  destruct (reachable_wiring w o (h self) Hreach) as (Ho & Hf & Hv & _).
  rewrite Rotor_reset_run, Rotor_init_run. cbn [snd].
  rewrite !store_eq, reset_state_eq. now rewrite Ho, Hf, Hv.
Qed.

Lemma X24_reset_is_construction_witness :
  snd (Rotor_reset 0%nat heap_turned) 0%nat =
  snd (Rotor_init 0%nat wiring_I 3 blank_heap) 0%nat.
Proof.
  apply (X24_reset_is_construction wiring_I 3 0%nat heap_turned blank_heap).
  apply (reach_rotate wiring_I 3 0%nat
           (snd (Rotor_init 0%nat wiring_I 3 blank_heap)) 5).
  apply reach_init. exists 0%nat, blank_heap. reflexivity.
Defined.

(** X25: [encipher] only turns rotors.  Whatever the text and whether the
    run returns or raises, every object of the heap keeps its initial
    offset and its two dictionaries, its rotated alphabet is a
    rearrangement of what it was, and an object that is not in the rotor
    list of the machine is not changed at all. *)
Theorem X25_encipher_only_turns
  (m : Machine) (text : str) (h : heap) (p : ref) :
  let h' := snd (Machine_encipher m text h) in
  initial_offset (h' p) = initial_offset (h p) /\
  forward_mappings (h' p) = forward_mappings (h p) /\
  reverse_mappings (h' p) = reverse_mappings (h p) /\
  Permutation (alphabet (h' p)) (alphabet (h p)) /\
  (~ In p (rotors m) -> h' p = h p).
Proof.
  cbv zeta. destruct (encipher_turned m text h) as [Hw Hf].
  destruct (Hw p) as (H1 & H2 & H3 & H4).
  repeat split; trivial. now apply Hf.
Qed.

Lemma rotation_nth_error {A} (a : list A) (k i : nat) :
  (k <= length a)%nat -> (i < length a)%nat ->
  nth_error (skipn k a ++ firstn k a) i =
  nth_error a (if (i <? length a - k)%nat then i + k
               else i + k - length a)%nat.
Proof.
  intros Hk Hi. destruct (Nat.ltb_spec i (length a - k)) as [H | H].
  - rewrite nth_error_app1 by (rewrite length_skipn; lia).
    rewrite nth_error_skipn. f_equal. lia.
  - rewrite nth_error_app2 by (rewrite length_skipn; lia).
    rewrite length_skipn, nth_error_firstn.
    destruct (Nat.ltb_spec (i - (length a - k)) k) as [H' | H']; [|lia].
    f_equal. lia.
Qed.

Lemma find_None (s : str) (c : ascii) : find s c = None <-> ~ In c s.
Proof.
  split.
  - intros H Hin. destruct (find_In s c Hin) as [i Hi]. congruence.
  - intros H. destruct (find s c) as [i|] eqn:E; [|reflexivity].
    elim H. eapply nth_error_In, find_nth_error; eassumption.
Qed.

Lemma rotation_find (a : str) (k p : nat) (x : ascii) :
  NoDup a -> (k <= length a)%nat ->
  find a x = Some p ->
  find (skipn k a ++ firstn k a) x =
  Some (if (k <=? p)%nat then p - k else p + length a - k)%nat.
Proof.
  intros Hnd Hk Hp.
  assert (Hlt := find_lt _ _ _ Hp).
  apply find_NoDup.
  - apply (Permutation_NoDup (l := a)); [|assumption].
    rewrite Permutation_app_comm. now rewrite firstn_skipn.
  - rewrite rotation_nth_error
      by (trivial; destruct (Nat.leb_spec k p); lia).
    rewrite <- (find_nth_error _ _ _ Hp). f_equal.
    destruct (Nat.leb_spec k p) as [H | H].
    + destruct (Nat.ltb_spec (p - k) (length a - k)); lia.
    + destruct (Nat.ltb_spec (p + length a - k) (length a - k)); lia.
Qed.

Lemma rotation_find_None (a : str) (k : nat) (x : ascii) :
  find a x = None -> find (skipn k a ++ firstn k a) x = None.
Proof.
  rewrite !find_None. intros H Hin. apply H.
  apply in_app_or in Hin. rewrite <- (firstn_skipn k a).
  apply in_or_app. tauto.
Qed.

(** X26: turning a rotor shifts its contacts.  For a rotor of any wiring in
    any reachable state, an offset [k] in 0..26 and a contact [i] in 0..25:
    after [rotate(k)], [translate] at contact [i] gives what [translate]
    gave before at contact [(i + k) mod 26], moved back by [k] modulo 26,
    and raises what it raised there. *)
Theorem X26_translate_after_rotate
  (w : str) (o : Z) (self : ref) (h : heap) (k i : Z) (right : bool) :
  reachable w o (h self) ->
  0 <= k <= 26 -> 0 <= i < 26 ->
  fst (Rotor_translate self i right (snd (Rotor_rotate self k h))) =
  match fst (Rotor_translate self ((i + k) mod 26) right h) with
  | Ok j => Ok ((j - k) mod 26)
  | Raise e => Raise e
  end.
Proof.
  intros Hreach Hk Hi.
  destruct (reachable_wiring w o (h self) Hreach) as (_ & _ & _ & Ha).
  assert (Hlen : length (alphabet (h self)) = 26%nat)
    by now rewrite (Permutation_length Ha).
  assert (Hnd : NoDup (alphabet (h self)))
    by (apply (Permutation_NoDup (Permutation_sym Ha)), ALPHABET_NoDup).
  rewrite Rotor_rotate_run, !Rotor_translate_run. cbn [fst snd].
  rewrite store_eq. unfold translate_of, rotated.
  cbn [alphabet forward_mappings reverse_mappings set_rotations set_alphabet].
  set (a := alphabet (h self)) in *.
  set (d := if right then forward_mappings (h self)
            else reverse_mappings (h self)).
  rewrite rotation_nat by (rewrite Hlen; lia).
  set (K := Z.to_nat k). set (I := Z.to_nat i).
  assert (HK : (K <= 26)%nat) by (unfold K; lia).
  assert (HI : (I < 26)%nat) by (unfold I; lia).
  set (I' := (if (I <? 26 - K)%nat then I + K else I + K - 26)%nat).
  assert (HI' : (i + k) mod 26 = Z.of_nat I').
  { unfold I'. destruct (Nat.ltb_spec I (26 - K)) as [H | H].
    - rewrite Z.mod_small by (unfold I, K in *; lia). unfold I, K. lia.
    - symmetry. apply (Z.mod_unique _ _ 1); unfold I, K in *; lia. }
  unfold translate_with.
  replace i with (Z.of_nat I) at 1 by (unfold I; lia).
  rewrite HI', !getitem_nat.
  rewrite rotation_nth_error by (rewrite Hlen; lia).
  rewrite Hlen. fold I'.
  destruct (nth_error a I') as [x|]; [|reflexivity].
  cbn [rbind]. destruct (dict_getitem d x) as [y|]; [|reflexivity].
  cbn [rbind]. unfold index.
  destruct (find a y) as [p|] eqn:Hp.
  - rewrite (rotation_find a K p y Hnd) by (trivial; rewrite Hlen; lia).
    rewrite Hlen. f_equal.
    assert (Hlt := find_lt _ _ _ Hp). rewrite Hlen in Hlt.
    destruct (Nat.leb_spec K p) as [H | H].
    + rewrite Z.mod_small by (unfold K in *; lia). unfold K in *. lia.
    + apply (Z.mod_unique _ _ (-1)); unfold K in *; lia.
  - now rewrite (rotation_find_None a K y Hp).
Qed.

Lemma X26_translate_after_rotate_witness :
  fst (Rotor_translate 0%nat 20 true (snd (Rotor_rotate 0%nat 9 heap_turned)))
  = match fst (Rotor_translate 0%nat ((20 + 9) mod 26) true heap_turned) with
    | Ok j => Ok ((j - 9) mod 26)
    | Raise e => Raise e
    end.
Proof.
  apply (X26_translate_after_rotate wiring_I 3 0%nat heap_turned 9 20 true).
  - apply (reach_rotate wiring_I 3 0%nat
             (snd (Rotor_init 0%nat wiring_I 3 blank_heap)) 5).
    apply reach_init. exists 0%nat, blank_heap. reflexivity.
  - lia.
  - lia.
Defined.
